(** * Plawser: a shallow embedding and its verified properties

    Most of the development follows [src/WebUtils.js]: the DOM is a heap of
    nodes addressed by identifiers, with parent pointers, ordered child
    lists, a string-valued style map and a numeric opacity; event handlers
    are state transformers that may throw; [setTimeout] is a queue of
    defunctionalised continuations driven by a virtual clock.  The methods
    of [src/Player.js] and the weighted draw of [RandomUtils] are embedded
    as functions on a record and on the entries of a [Map]. *)

From Stdlib Require Import ZArith List String Bool Lia PeanoNat.
From Stdlib Require Import Floats.PrimFloat.
Import ListNotations.

Set Implicit Arguments.
#[local] Set Warnings "-inexact-float".
#[local] Open Scope Z_scope.


(** ** The DOM heap *)


Definition Node := nat.

Module Dom.

Inductive Tag := TABLE | TR | TD | BUTTON | SPAN | DIV.

(** The host document.  [nextId] is the allocation pointer of
    [document.createElement]; [style] maps a node and a CSS property name
    to its value, the empty string standing for an unset property;
    [opacity] is [style.opacity], [None] when it is unset (the empty
    string, which is falsy) and otherwise the number that [parseFloat]
    reads back. *)
Record t := mk {
  nextId      : nat;
  parentNode  : Node -> option Node;
  childNodes  : Node -> list Node;
  tagName     : Node -> Tag;
  textContent : Node -> option nat;
  disabled    : Node -> bool;
  style       : Node -> string -> string;
  opacity     : Node -> option float
}.

Definition upd {A} (f : Node -> A) (n : Node) (v : A) : Node -> A :=
  fun m => if Nat.eqb m n then v else f m.

Definition setStyle (n : Node) (prop value : string) (d : t) : t :=
  mk (nextId d) (parentNode d) (childNodes d) (tagName d) (textContent d)
     (disabled d)
     (upd (style d) n
          (fun p => if String.eqb p prop then value else style d n p))
     (opacity d).

Definition setOpacity (n : Node) (v : float) (d : t) : t :=
  mk (nextId d) (parentNode d) (childNodes d) (tagName d) (textContent d)
     (disabled d) (style d) (upd (opacity d) n (Some v)).

Definition setDisabled (n : Node) (b : bool) (d : t) : t :=
  mk (nextId d) (parentNode d) (childNodes d) (tagName d) (textContent d)
     (upd (disabled d) n b) (style d) (opacity d).

Definition setTextContent (n : Node) (i : nat) (d : t) : t :=
  mk (nextId d) (parentNode d) (childNodes d) (tagName d)
     (upd (textContent d) n (Some i)) (disabled d) (style d) (opacity d).

(** [document.createElement(tag)]: a fresh, detached, childless node. *)
Definition createElement (tag : Tag) (d : t) : Node * t :=
  (nextId d,
   mk (S (nextId d)) (parentNode d) (childNodes d)
      (upd (tagName d) (nextId d) tag) (textContent d) (disabled d)
      (style d) (opacity d)).

Fixpoint remove (c : Node) (l : list Node) : list Node :=
  match l with
  | [] => []
  | x :: l' => if Nat.eqb x c then remove c l' else x :: remove c l'
  end.

(** [p.appendChild(c)]: [c] is first removed from its current parent, if
    it has one, and then becomes the last child of [p]. *)
Definition appendChild (p c : Node) (d : t) : t :=
  let detached :=
    match parentNode d c with
    | Some q => upd (childNodes d) q (remove c (childNodes d q))
    | None => childNodes d
    end in
  mk (nextId d) (upd (parentNode d) c (Some p))
     (upd detached p (detached p ++ [c]))
     (tagName d) (textContent d) (disabled d) (style d) (opacity d).

(** [p.contains(c)]: [c] is [p] or a descendant of [p].  The walk follows
    parent pointers upwards from [c]. *)
Fixpoint isInclusiveAncestor (fuel : nat) (d : t) (p c : Node) : bool :=
  Nat.eqb p c ||
  match fuel with
  | O => false
  | S fuel' =>
      match parentNode d c with
      | Some q => isInclusiveAncestor fuel' d p q
      | None => false
      end
  end.

Definition contains (d : t) (p c : Node) : bool :=
  isInclusiveAncestor (nextId d) d p c.

End Dom.

(** A handler either runs to completion or throws a [TypeError]; in both
    cases the mutations made so far persist. *)
Inductive Outcome (S : Type) : Type :=
| Done (s : S)
| TypeError (s : S).
Arguments Done {S} s.
Arguments TypeError {S} s.

Definition bind {S} (o : Outcome S) (k : S -> Outcome S) : Outcome S :=
  match o with
  | Done s => k s
  | TypeError s => TypeError s
  end.

Notation "o >>= k" := (bind o k) (at level 50, left associativity).

(** [arr[i]] for a JavaScript number [i]: [undefined] out of range. *)
Definition item {A} (arr : list A) (i : Z) : option A :=
  if (i <? 0) then None else nth_error arr (Z.to_nat i).


(** ** [whichIsParent] *)


Fixpoint whichIsParent_from (d : Dom.t) (child : Node)
         (possibleParents : list Node) (i : Z) : Z :=
  match possibleParents with
  | [] => -1
  | p :: rest =>
      if Dom.contains d p child then i
      else whichIsParent_from d child rest (i + 1)
  end.

Definition whichIsParent (d : Dom.t) (child : Node)
           (possibleParents : list Node) : Z :=
  whichIsParent_from d child possibleParents 0.


(** ** [prepareElsAsSelectableBlocks] *)

Module Selectable.

(** The recognised fields of [options]; [None] is an absent field.  The
    [onSelect] callback is opaque: its invocations are recorded. *)
Record Options := mkOptions {
  opt_defaultColor   : option string;
  opt_mouseOverColor : option string;
  opt_selectedColor  : option string
}.

(** [if (options.x) { v = options.x; }]: an absent field and the empty
    string are both falsy. *)
Definition orDefault (field : option string) (dflt : string) : string :=
  match field with
  | Some s => if String.eqb s "" then dflt else s
  | None => dflt
  end.

(** What the handlers close over, apart from the mutable [activeIndex]. *)
Record Env := mkEnv {
  els            : list Node;
  defaultColor   : string;
  mouseOverColor : string;
  selectedColor  : string
}.

(** One invocation of [onSelect]: its argument, and what the function
    returned by [prepareElsAsSelectableBlocks] yields if it is called from
    inside the callback. *)
Record Invocation := mkInvocation {
  argument         : Z;
  currentSelection_inside : Z
}.

Record State := mkState {
  dom          : Dom.t;
  activeIndex  : Z;
  onSelectLog  : list Invocation
}.

Definition setDom (d : Dom.t) (st : State) : State :=
  mkState d (activeIndex st) (onSelectLog st).

Definition setActiveIndex (i : Z) (st : State) : State :=
  mkState (dom st) i (onSelectLog st).

(** The function returned by [prepareElsAsSelectableBlocks]. *)
Definition currentSelection (st : State) : Z := activeIndex st.

Definition onSelect (index : Z) (st : State) : State :=
  mkState (dom st) (activeIndex st)
          (onSelectLog st ++ [mkInvocation index (currentSelection st)]).

(** The body of the [for] loop, handlers apart. *)
Definition prepareEl (dfltColor : string) (d : Dom.t) (el : Node) : Dom.t :=
  Dom.setStyle el "borderColor" dfltColor
    (Dom.setStyle el "cursor" "pointer"
       (Dom.setStyle el "borderWidth" "medium"
          (Dom.setStyle el "borderStyle" "solid" d))).

Definition prepareElsAsSelectableBlocks (elements : list Node)
           (options : option Options) (d : Dom.t) : Env * State :=
  let env :=
    match options with
    | Some o =>
        mkEnv elements
              (orDefault (opt_defaultColor o) "black")
              (orDefault (opt_mouseOverColor o) "orange")
              (orDefault (opt_selectedColor o) "red")
    | None => mkEnv elements "black" "orange" "red"
    end in
  (env, mkState (fold_left (prepareEl (defaultColor env)) elements d) (-1) []).

(** [els[i].style.borderColor = color]; [els[i]] is [undefined] when [i] is
    out of range, and reading [.style] of it throws. *)
Definition setBorderColor (env : Env) (i : Z) (color : string) (st : State)
  : Outcome State :=
  match item (els env) i with
  | Some el => Done (setDom (Dom.setStyle el "borderColor" color (dom st)) st)
  | None => TypeError st
  end.

Definition onmouseenter (env : Env) (target : Node) (st : State)
  : Outcome State :=
  let thisElsIndex := whichIsParent (dom st) target (els env) in
  if negb (activeIndex st =? thisElsIndex)
  then setBorderColor env thisElsIndex (mouseOverColor env) st
  else Done st.

Definition onmouseleave (env : Env) (target : Node) (st : State)
  : Outcome State :=
  let thisElsIndex := whichIsParent (dom st) target (els env) in
  if negb (activeIndex st =? thisElsIndex)
  then setBorderColor env thisElsIndex (defaultColor env) st
  else Done st.

Definition onclick (env : Env) (target : Node) (st : State)
  : Outcome State :=
  (if negb (activeIndex st =? -1)
   then setBorderColor env (activeIndex st) (defaultColor env) st
   else Done st) >>= fun st1 =>
  let thisElsIndex := whichIsParent (dom st1) target (els env) in
  setBorderColor env thisElsIndex (selectedColor env) st1 >>= fun st2 =>
  if negb (activeIndex st2 =? thisElsIndex)
  then let st3 := setActiveIndex thisElsIndex st2 in
       Done (onSelect (activeIndex st3) st3)
  else Done (setActiveIndex thisElsIndex st2).

Inductive Event :=
| MouseEnter (target : Node)
| MouseLeave (target : Node)
| Click (target : Node).

Definition target (e : Event) : Node :=
  match e with MouseEnter t | MouseLeave t | Click t => t end.

Definition dispatch (env : Env) (e : Event) (st : State) : Outcome State :=
  match e with
  | MouseEnter t => onmouseenter env t st
  | MouseLeave t => onmouseleave env t st
  | Click t => onclick env t st
  end.

(** Events delivered one after the other, up to the first uncaught throw. *)
Fixpoint dispatchAll (env : Env) (es : list Event) (st : State)
  : Outcome State :=
  match es with
  | [] => Done st
  | e :: rest => dispatch env e st >>= dispatchAll env rest
  end.

(** The event's origin lies inside one of the prepared elements. *)
Definition resolved (d : Dom.t) (env : Env) (e : Event) : Prop :=
  whichIsParent d (target e) (els env) <> -1.

Definition borderColor (st : State) (el : Node) : string :=
  Dom.style (dom st) el "borderColor".

(** At most one prepared element carries [selectedColor], and when
    [currentSelection()] is not [-1] it is the element at that index. *)
Definition exclusive (env : Env) (st : State) : Prop :=
  (forall n m, In n (els env) -> In m (els env) ->
     borderColor st n = selectedColor env ->
     borderColor st m = selectedColor env -> n = m) /\
  (currentSelection st <> -1 ->
     exists n, item (els env) (currentSelection st) = Some n /\
       borderColor st n = selectedColor env /\
       forall m, In m (els env) ->
         borderColor st m = selectedColor env -> m = n).

Definition stateOf {S} (o : Outcome S) : S :=
  match o with Done s | TypeError s => s end.

(** The states a page can be in: an uncaught throw ends the handler that
    raised it and leaves the page running. *)
Inductive reachable (env : Env) (st0 : State) : State -> Prop :=
| reach_init : reachable env st0 st0
| reach_step st e :
    reachable env st0 st -> reachable env st0 (stateOf (dispatch env e st)).

(** Two documents with the same tree: the handlers change styles only. *)
Definition sameTree (d d' : Dom.t) : Prop :=
  Dom.parentNode d' = Dom.parentNode d /\ Dom.nextId d' = Dom.nextId d.

(** [activeIndex] is [-1] or the index some origin resolves to. *)
Definition activeIndexValid (d : Dom.t) (env : Env) (st : State) : Prop :=
  sameTree d (dom st) /\
  (activeIndex st = -1 \/
   exists t, whichIsParent d t (els env) = activeIndex st /\
             activeIndex st <> -1).


End Selectable.


(** ** Timers, [fadeIn], [fadeOut] and [fadeInChildrenProgressively] *)

Module Anim.

(** The callbacks handed to [fadeIn] and [fadeOut], as data.
    - [UserCallback id]: a callback supplied by the caller; opaque, its
      invocations are recorded;
    - [AfterChildFade domEl timeout callback i]: the arrow function that
      [fadeInRecursive i] passes to [fadeIn];
    - [LeftArrowDone trEls index] and [RightArrowDone trEls index]: the arrow
      functions that the slideshow buttons pass to [fadeOut]. *)
Inductive Callback :=
| UserCallback (id : nat)
| AfterChildFade (domEl : Node) (timeoutBetweenTextBlocks : Z)
                 (callback : Callback) (i : nat)
| LeftArrowDone (trEls : list Node) (trElIndexForThisButton : Z)
| RightArrowDone (trEls : list Node) (trElIndexForThisButton : Z).

(** The functions handed to [setTimeout], as data. *)
Inductive Task :=
| FadeInTick (domEl : Node) (callback : Callback)
| FadeOutTick (domEl : Node) (callback : Callback)
| NextChild (domEl : Node) (timeoutBetweenTextBlocks : Z)
            (callback : Callback) (i : nat).

Record Timer := mkTimer {
  delay : Z;
  due   : Z;
  task  : Task
}.

(** What the run leaves behind for an observer: every [setTimeout] call
    with the time of the call, and every call of a [UserCallback]. *)
Inductive Entry :=
| Scheduled (at_ : Z) (delay_ : Z) (task_ : Task)
| Called (id : nat) (at_ : Z).

Record World := mkWorld {
  dom      : Dom.t;
  now      : Z;
  timers   : list Timer;
  trace    : list Entry;
  uncaught : nat
}.

Definition setDom (d : Dom.t) (w : World) : World :=
  mkWorld d (now w) (timers w) (trace w) (uncaught w).

(** [setTimeout(task, delay)]; a negative delay counts as zero. *)
Definition setTimeout (tk : Task) (dl : Z) (w : World) : World :=
  mkWorld (dom w) (now w)
          (timers w ++ [mkTimer dl (now w + Z.max 0 dl) tk])
          (trace w ++ [Scheduled (now w) dl tk])
          (uncaught w).

Record FadeOptions := mkFadeOptions { fadeTimeStep : option Z }.

(** [if (options && options.fadeTimeStep)]: zero is falsy. *)
Definition stepOf (options : option FadeOptions) : Z :=
  match options with
  | Some (mkFadeOptions (Some t)) => if t =? 0 then 80 else t
  | _ => 80
  end.

(** [if (! domEl.style.opacity) { domEl.style.opacity = 1.0; }] *)
Definition ensureOpacity (domEl : Node) (w : World) : World :=
  match Dom.opacity (dom w) domEl with
  | Some _ => w
  | None => setDom (Dom.setOpacity domEl 1%float (dom w)) w
  end.

(** [parseFloat(domEl.style.opacity)]; the empty string gives [NaN]. *)
Definition parseOpacity (domEl : Node) (w : World) : float :=
  match Dom.opacity (dom w) domEl with
  | Some o => o
  | None => PrimFloat.nan
  end.

Definition fadeIn (domEl : Node) (callback : Callback)
           (options : option FadeOptions) (w : World) : World :=
  setTimeout (FadeInTick domEl callback) (stepOf options)
             (ensureOpacity domEl w).

Definition fadeOut (domEl : Node) (callback : Callback)
           (options : option FadeOptions) (w : World) : World :=
  setTimeout (FadeOutTick domEl callback) (stepOf options)
             (ensureOpacity domEl w).

Definition setDisplay (n : Node) (v : string) (w : World) : World :=
  setDom (Dom.setStyle n "display" v (dom w)) w.

Definition setOpacity (n : Node) (v : float) (w : World) : World :=
  setDom (Dom.setOpacity n v (dom w)) w.

(** The completion callback of a slideshow button: hide this row, show the
    row at [shown] at full opacity. *)
Definition swapRows (trEls : list Node) (index shown : Z) (w : World)
  : Outcome World :=
  match item trEls index with
  | None => TypeError w
  | Some trElForThisButton =>
      let w1 := setDisplay trElForThisButton "none" w in
      match item trEls shown with
      | None => TypeError w1
      | Some other => Done (setOpacity other 1%float (setDisplay other "inline" w1))
      end
  end.

(** [callback()] *)
Definition invoke (callback : Callback) (w : World) : Outcome World :=
  match callback with
  | UserCallback id =>
      Done (mkWorld (dom w) (now w) (timers w)
                    (trace w ++ [Called id (now w)]) (uncaught w))
  | AfterChildFade domEl timeout cb i =>
      Done (setTimeout (NextChild domEl timeout cb i) timeout w)
  | LeftArrowDone trEls index => swapRows trEls index (index - 1) w
  | RightArrowDone trEls index => swapRows trEls index (index + 1) w
  end.

(** [fadeInRecursive(i)], over the live child list of [domEl]. *)
Definition fadeInRecursive (domEl : Node) (timeout : Z) (callback : Callback)
           (i : nat) (w : World) : Outcome World :=
  let domElChildren := Dom.childNodes (dom w) domEl in
  if (List.length domElChildren <=? i)%nat then invoke callback w
  else match nth_error domElChildren i with
       | Some child =>
           Done (fadeIn child (AfterChildFade domEl timeout callback i) None w)
       | None => TypeError w
       end.




(** The body of a function handed to [setTimeout]. *)
Definition runTask (tk : Task) (w : World) : Outcome World :=
  match tk with
  | FadeInTick domEl callback =>
      let newOpacity := (parseOpacity domEl w + 0.1)%float in
      if (1 <? newOpacity)%float
      then invoke callback (setOpacity domEl 1%float w)
      else Done (fadeIn domEl callback None (setOpacity domEl newOpacity w))
  | FadeOutTick domEl callback =>
      let newOpacity := (parseOpacity domEl w - 0.1)%float in
      if (newOpacity <? 0)%float
      then invoke callback (setOpacity domEl 0%float w)
      else Done (fadeOut domEl callback None (setOpacity domEl newOpacity w))
  | NextChild domEl timeout callback i =>
      fadeInRecursive domEl timeout callback (i + 1) w
  end.

(** The pending timer that fires next: the earliest due, and among equals
    the one set first. *)
Fixpoint earliest (best : Timer) (before after rest : list Timer)
  : Timer * list Timer :=
  match rest with
  | [] => (best, before ++ after)
  | t :: rest' =>
      if due t <? due best
      then earliest t (before ++ best :: after) [] rest'
      else earliest best before (after ++ [t]) rest'
  end.

Definition nextTimer (ts : list Timer) : option (Timer * list Timer) :=
  match ts with
  | [] => None
  | t :: rest => Some (earliest t [] [] rest)
  end.

(** One turn of the event loop; an uncaught exception ends the callback and
    is counted. *)
Definition turn (w : World) : option World :=
  match nextTimer (timers w) with
  | None => None
  | Some (t, rest) =>
      let w1 := mkWorld (dom w) (Z.max (now w) (due t)) rest (trace w)
                        (uncaught w) in
      match runTask (task t) w1 with
      | Done w2 => Some w2
      | TypeError w2 =>
          Some (mkWorld (dom w2) (now w2) (timers w2) (trace w2)
                        (S (uncaught w2)))
      end
  end.

(** The event loop, for at most [fuel] turns. *)
Fixpoint run (fuel : nat) (w : World) : World :=
  match fuel with
  | O => w
  | S fuel' =>
      match turn w with
      | None => w
      | Some w' => run fuel' w'
      end
  end.

(** The number of ticks a fade-in takes from opacity [o], the completing
    tick included, if it completes within [fuel] ticks. *)
Fixpoint ticksIn (fuel : nat) (o : float) : option nat :=
  match fuel with
  | O => None
  | S fuel' =>
      if (1 <? o + 0.1)%float then Some 1%nat
      else option_map S (ticksIn fuel' (o + 0.1)%float)
  end.

End Anim.


(** ** [prepareSlideshow] *)

Module Slideshow.

Record Options := mkOptions {
  numVisible   : option Z;
  fadeTimeStep : option Z
}.

Definition numVisibleOf (options : option Options) : Z :=
  match options with
  | Some (mkOptions (Some k) _) => if k =? 0 then 3 else k
  | _ => 3
  end.

Definition fadeTimeStepOf (options : option Options) : Z :=
  match options with
  | Some (mkOptions _ (Some t)) => if t =? 0 then 10 else t
  | _ => 10
  end.

(** What the button handlers close over. *)
Record Env := mkEnv {
  slideShowEl : Node;
  trEls       : list Node;
  step        : Z
}.

(** A styled button whose [innerHTML] is an arrow [span] followed by a
    hidden [span] holding the row index [i]. *)
Definition makeButton (i : nat) (d : Dom.t) : Node * Dom.t :=
  let (button, d1) := Dom.createElement Dom.BUTTON d in
  let d2 := Dom.setStyle button "fontSize" "large"
              (Dom.setStyle button "height" "100%" d1) in
  let (arrow, d3) := Dom.createElement Dom.SPAN d2 in
  let d4 := Dom.appendChild button arrow d3 in
  let (hidden, d5) := Dom.createElement Dom.SPAN d4 in
  let d6 := Dom.setTextContent hidden i
              (Dom.setStyle hidden "display" "none" d5) in
  (button, Dom.appendChild button hidden d6).

(** The body of [while (divIndex < divs.length)]. *)
Definition appendDiv (trEl : Node) (d : Dom.t) (div : Node) : Dom.t :=
  let (tdEl, d1) := Dom.createElement Dom.TD d in
  Dom.appendChild trEl tdEl (Dom.appendChild tdEl div d1).

(** [i < divs.length / numVisible], a comparison of real numbers. *)
Definition moreRows (n k : Z) (i : nat) : bool :=
  (0 <? k) && (Z.of_nat i * k <? n).

(** [i >= divs.length / numVisible - 1] *)
Definition isLastRow (n k : Z) (i : nat) : bool :=
  if 0 <? k then n <=? (Z.of_nat i + 1) * k
  else if k <? 0 then (Z.of_nat i + 1) * k <=? n
  else false.

(** The body of the outer [for] loop.  The [while] loop visits
    [divs[divIndex]] for every [divIndex] from [i * numVisible] up to the
    end of [divs]. *)
Definition buildRow (divs : list Node) (k : Z) (i : nat)
           (acc : Dom.t * list Node) : Dom.t * list Node :=
  let (d, rows) := acc in
  let n := Z.of_nat (List.length divs) in
  let (trEl, d1) := Dom.createElement Dom.TR d in
  let d2 := if (0 <? i)%nat then Dom.setStyle trEl "display" "none" d1
            else d1 in
  let (leftButton, d3) := makeButton i d2 in
  let d4 := if (i =? 0)%nat then Dom.setDisabled leftButton true d3 else d3 in
  let (leftButtonTdEl, d5) := Dom.createElement Dom.TD d4 in
  let d6 := Dom.appendChild trEl leftButtonTdEl
              (Dom.appendChild leftButtonTdEl leftButton d5) in
  let d7 := fold_left (appendDiv trEl)
              (skipn (Z.to_nat (Z.of_nat i * k)) divs) d6 in
  let (rightButton, d8) := makeButton i d7 in
  let d9 := if isLastRow n k i then Dom.setDisabled rightButton true d8
            else d8 in
  let (rightButtonTdEl, d10) := Dom.createElement Dom.TD d9 in
  let d11 := Dom.appendChild trEl rightButtonTdEl
               (Dom.appendChild rightButtonTdEl rightButton d10) in
  (d11, rows ++ [trEl]).

Fixpoint buildRows (fuel : nat) (divs : list Node) (k : Z) (i : nat)
         (acc : Dom.t * list Node) : Dom.t * list Node :=
  match fuel with
  | O => acc
  | S fuel' =>
      if moreRows (Z.of_nat (List.length divs)) k i
      then buildRows fuel' divs k (S i) (buildRow divs k i acc)
      else acc
  end.

Definition prepareSlideshow (divs : list Node) (options : option Options)
           (d : Dom.t) : Env * Dom.t :=
  let (table, d1) := Dom.createElement Dom.TABLE d in
  let (d2, rows) :=
    buildRows (List.length divs) divs (numVisibleOf options) 0 (d1, []) in
  (mkEnv table rows (fadeTimeStepOf options),
   fold_left (fun d' trEl => Dom.appendChild table trEl d') rows d2).

Fixpoint after (n : Node) (l : list Node) : option Node :=
  match l with
  | [] => None
  | x :: l' => if Nat.eqb x n then hd_error l' else after n l'
  end.

Definition nextSibling (d : Dom.t) (n : Node) : option Node :=
  match Dom.parentNode d n with
  | Some p => after n (Dom.childNodes d p)
  | None => None
  end.

(** The row index a button handler reads off the event target.  The outer
    [None] is a throw (a property of [null] is read); the inner [None] is
    a value that is not an index ([undefined] or [NaN]). *)
Definition trElIndexForThisButton (d : Dom.t) (target : Node)
  : option (option Z) :=
  match Dom.tagName d target with
  | Dom.BUTTON =>
      match nth_error (Dom.childNodes d target) 1 with
      | Some s => Some (option_map Z.of_nat (Dom.textContent d s))
      | None => None
      end
  | Dom.SPAN =>
      match nextSibling d target with
      | Some s => Some (option_map Z.of_nat (Dom.textContent d s))
      | None => None
      end
  | _ => Some None
  end.

(** The common shape of both [onclick] handlers; [fadeOut] throws when it
    is handed [undefined]. *)
Definition arrow_onclick (done : list Node -> Z -> Anim.Callback)
           (env : Env) (target : Node) (w : Anim.World)
  : Outcome Anim.World :=
  match trElIndexForThisButton (Anim.dom w) target with
  | None => TypeError w
  | Some None => TypeError w
  | Some (Some index) =>
      match item (trEls env) index with
      | None => TypeError w
      | Some trElForThisButton =>
          Done (Anim.fadeOut trElForThisButton (done (trEls env) index)
                  (Some (Anim.mkFadeOptions (Some (step env)))) w)
      end
  end.

Definition leftButton_onclick := arrow_onclick Anim.LeftArrowDone.
Definition rightButton_onclick := arrow_onclick Anim.RightArrowDone.

(** Queries on the finished document. *)
Definition leftButtonOf (d : Dom.t) (trEl : Node) : option Node :=
  match hd_error (Dom.childNodes d trEl) with
  | Some td => hd_error (Dom.childNodes d td)
  | None => None
  end.

Definition rightButtonOf (d : Dom.t) (trEl : Node) : option Node :=
  match hd_error (rev (Dom.childNodes d trEl)) with
  | Some td => hd_error (Dom.childNodes d td)
  | None => None
  end.

Definition shown (d : Dom.t) (trEl : Node) : bool :=
  negb (String.eqb (Dom.style d trEl "display") "none").

Definition isDiv (divs : list Node) (n : Node) : bool :=
  existsb (Nat.eqb n) divs.

(** The content elements residing in a row, in document order. *)
Definition pageContent (d : Dom.t) (divs : list Node) (trEl : Node)
  : list Node :=
  filter (isDiv divs) (flat_map (Dom.childNodes d) (Dom.childNodes d trEl)).

(** [ceil(n / k)] *)
Definition pageCount (n k : nat) : nat := ((n + k - 1) / k)%nat.

(** Page [i] of a partition of [l] into pages of [k]. *)
Definition page (k : nat) (l : list Node) (i : nat) : list Node :=
  firstn k (skipn (i * k) l).

End Slideshow.


(** ** Derived notions used to state properties of the handlers *)

Module SelectableLog.

Fixpoint neighboursDiffer (l : list Z) : Prop :=
  match l with
  | x :: ((y :: _) as rest) => x <> y /\ neighboursDiffer rest
  | _ => True
  end.

(** What the record of [onSelect] invocations always looks like: every
    invocation was handed an index of [els] and saw [currentSelection()]
    equal to it, two invocations in a row never carry the same index, and
    [currentSelection()] is the index of the latest invocation, or [-1] if
    there was none. *)
Definition consistent (env : Selectable.Env) (st : Selectable.State) : Prop :=
  Forall (fun inv =>
            Selectable.currentSelection_inside inv = Selectable.argument inv /\
            0 <= Selectable.argument inv <
              Z.of_nat (List.length (Selectable.els env)))
         (Selectable.onSelectLog st) /\
  neighboursDiffer (map Selectable.argument (Selectable.onSelectLog st)) /\
  Selectable.currentSelection st =
    last (map Selectable.argument (Selectable.onSelectLog st)) (-1).

End SelectableLog.


Module Timeline.

(** What a turn of the event loop keeps of a callback's outcome. *)
Definition settle (o : Outcome Anim.World) : Anim.World :=
  match o with
  | Done w => w
  | TypeError w =>
      Anim.mkWorld (Anim.dom w) (Anim.now w) (Anim.timers w) (Anim.trace w)
                   (S (Anim.uncaught w))
  end.

(** The number of ticks a fade-out takes from opacity [o], the completing
    tick included, if it completes within [fuel] ticks. *)
Fixpoint ticksOut (fuel : nat) (o : float) : option nat :=
  match fuel with
  | O => None
  | S fuel' =>
      if (o - 0.1 <? 0)%float then Some 1%nat
      else option_map S (ticksOut fuel' (o - 0.1)%float)
  end.

(** The opacity a fade starts from: an unset opacity is first set to 1. *)
Definition startOpacity (d : Dom.t) (el : Node) : float :=
  match Dom.opacity d el with
  | Some o => o
  | None => 1%float
  end.

(** [n] calls of [setTimeout(tk, 80)], the first at time [t], each made
    when the previous one fires. *)
Fixpoint reschedules (tk : Anim.Task) (t : Z) (n : nat) : list Anim.Entry :=
  match n with
  | O => []
  | S n' => Anim.Scheduled t 80 tk :: reschedules tk (t + 80) n'
  end.

(** Two documents that differ in opacities at most. *)
Definition sameExceptOpacity (d d' : Dom.t) : Prop :=
  Dom.nextId d' = Dom.nextId d /\
  Dom.parentNode d' = Dom.parentNode d /\
  Dom.childNodes d' = Dom.childNodes d /\
  Dom.tagName d' = Dom.tagName d /\
  Dom.textContent d' = Dom.textContent d /\
  Dom.disabled d' = Dom.disabled d /\
  Dom.style d' = Dom.style d.


End Timeline.

Module Heap.

(** Every entry of a child list points back to the list's owner. *)
Definition consistent (d : Dom.t) : Prop :=
  forall q c, In c (Dom.childNodes d q) -> Dom.parentNode d c = Some q.

(** Identifiers not yet handed out name detached, childless nodes. *)
Definition unallocated (d : Dom.t) : Prop :=
  forall n, (Dom.nextId d <= n)%nat ->
    Dom.childNodes d n = [] /\ Dom.parentNode d n = None.

Definition wellFormed (d : Dom.t) : Prop := consistent d /\ unallocated d.

(** A detached row of the slideshow: it is not a content element, and
    neither is any of its cells. *)
Definition isRow (d : Dom.t) (divs : list Node) (r : Node) : Prop :=
  (r < Dom.nextId d)%nat /\ Dom.parentNode d r = None /\ ~ In r divs /\
  forall x, In x (Dom.childNodes d r) -> ~ In x divs.

(** [acc] without the elements of [l]. *)
Definition removeAll (l : list Node) (acc : list Node) : list Node :=
  fold_left (fun acc c => Dom.remove c acc) l acc.

(** The two documents have the same tree below identifier [n]. *)
Definition agreeBelow (n : nat) (d d' : Dom.t) : Prop :=
  forall x, (x < n)%nat ->
    Dom.childNodes d' x = Dom.childNodes d x /\
    Dom.parentNode d' x = Dom.parentNode d x.

(** The rows built by the first [i] passes of the outer loop: every row
    but the last holds its page, the last one still holds everything from
    its page on. *)
Definition built (divs : list Node) (k i : nat) (d : Dom.t)
           (rows : list Node) : Prop :=
  wellFormed d /\
  (forall x, In x divs -> (x < Dom.nextId d)%nat) /\
  List.length rows = i /\
  (forall r, In r rows -> isRow d divs r) /\
  forall j r, nth_error rows j = Some r ->
    Slideshow.pageContent d divs r =
    if (S j <? i)%nat then Slideshow.page k divs j else skipn (j * k) divs.

(** What the outer loop of [prepareSlideshow] keeps true, [d0] being the
    document it started from and [table] the slideshow element. *)
Definition loopInv (d0 : Dom.t) (table : Node) (divs : list Node)
           (k i : nat) (d : Dom.t) (rows : list Node) : Prop :=
  built divs k i d rows /\ NoDup rows /\
  (forall r, In r rows -> (table < r)%nat) /\
  (table < Dom.nextId d)%nat /\
  isRow d divs table /\ Dom.childNodes d table = [] /\
  (forall x, (x <= table)%nat -> Dom.style d x = Dom.style d0 x) /\
  Dom.opacity d = Dom.opacity d0 /\
  (i = 0%nat -> Dom.style d = Dom.style d0) /\
  (forall j r, nth_error rows j = Some r ->
     Dom.style d r "display" =
     if (0 <? j)%nat then "none"%string else Dom.style d0 r "display").

(** What [d'] has kept of node [x] as it was in [d]: its tag, text and
    [disabled] flag; its parent, if it had one and is not a content
    element; its children, if none of them is a content element. *)
Definition kept (divs : list Node) (d d' : Dom.t) (x : Node) : Prop :=
  Dom.tagName d' x = Dom.tagName d x /\
  Dom.textContent d' x = Dom.textContent d x /\
  Dom.disabled d' x = Dom.disabled d x /\
  (~ In x divs -> Dom.parentNode d x <> None ->
   Dom.parentNode d' x = Dom.parentNode d x) /\
  ((forall c, In c (Dom.childNodes d x) -> ~ In c divs) ->
   Dom.childNodes d' x = Dom.childNodes d x).

(** A button as [makeButton] leaves it, marked with row index [j].
    Identifiers are handed out in sequence, so the arrow and the hidden
    span directly follow the button. *)
Definition isButton (d : Dom.t) (b : Node) (j : nat) : Prop :=
  (S (S b) < Dom.nextId d)%nat /\
  Dom.tagName d b = Dom.BUTTON /\
  Dom.childNodes d b = [S b; S (S b)] /\
  Dom.tagName d (S b) = Dom.SPAN /\
  Dom.parentNode d (S b) = Some b /\
  Dom.textContent d (S (S b)) = Some j.

(** Row [r] begins with a cell that holds the left button and ends with a
    cell that holds the right button, both marked with [j]; the right
    button's [disabled] flag is [last]. *)
Definition wired (d : Dom.t) (r : Node) (j : nat) (last : bool) : Prop :=
  exists tdl bl tdr br,
    hd_error (Dom.childNodes d r) = Some tdl /\
    hd_error (rev (Dom.childNodes d r)) = Some tdr /\
    Dom.childNodes d tdl = [bl] /\ Dom.childNodes d tdr = [br] /\
    (r < bl)%nat /\ (bl < tdl)%nat /\ (tdl < Dom.nextId d)%nat /\
    (r < br)%nat /\ (br < tdr)%nat /\ (tdr < Dom.nextId d)%nat /\
    isButton d bl j /\ isButton d br j /\
    Dom.disabled d bl = Nat.eqb j 0 /\ Dom.disabled d br = last.

(** What the outer loop keeps true of the buttons. *)
Definition wiredInv (table : Node) (divs : list Node) (n k : Z)
           (d : Dom.t) (rows : list Node) : Prop :=
  (forall x, In x divs -> (x < table)%nat) /\
  (forall x, (Dom.nextId d <= x)%nat -> Dom.disabled d x = false) /\
  forall j r, nth_error rows j = Some r ->
    wired d r j (Slideshow.isLastRow n k j).

End Heap.

(** ** The slideshow at rest *)

Module Navigation.

(** The page is idle, row [c] is the one row shown, and it is fully
    opaque (its opacity is unset or 1). *)
Definition atRow (env : Slideshow.Env) (w : Anim.World) (c : nat) : Prop :=
  Anim.timers w = [] /\
  forall j trEl, nth_error (Slideshow.trEls env) j = Some trEl ->
    Slideshow.shown (Anim.dom w) trEl = Nat.eqb j c /\
    (j = c -> Timeline.startOpacity (Anim.dom w) trEl = 1%float).

End Navigation.

(** ** [Player] *)

Module Player.

Record Skill := mkSkill {
  description : string;
  value       : float
}.

(** A [Map] from skill names: its entries in insertion order, one per
    key. *)
Definition Skills := list (string * Skill).

Fixpoint get (m : Skills) (key : string) : option Skill :=
  match m with
  | [] => None
  | (k, v) :: m' => if String.eqb k key then Some v else get m' key
  end.

Definition has (m : Skills) (key : string) : bool :=
  match get m key with
  | Some _ => true
  | None => false
  end.

(** [m.set(key, v)]: an existing entry is overwritten where it stands, a
    new one goes to the end. *)
Fixpoint set (m : Skills) (key : string) (v : Skill) : Skills :=
  match m with
  | [] => [(key, v)]
  | (k, v') :: m' =>
      if String.eqb k key then (k, v) :: m' else (k, v') :: set m' key v
  end.

(** The fields the constructor assigns. *)
Record t (Level Item : Type) := mk {
  name           : string;
  skills         : Skills;
  xp             : float;
  getLevelFromXp : float -> Level;
  xpLevel        : Level;
  items          : list Item
}.

(** A method call returns a status constant or throws; the object is as
    the call left it in both cases. *)
Inductive Result (Level Item : Type) : Type :=
| Returned (status : string) (this : t Level Item)
| Threw (this : t Level Item).
Arguments Threw {Level Item} this.

Definition recalculateXpLevel {Level Item} (this : t Level Item) : Level :=
  getLevelFromXp this (xp this).

Definition constructor {Level Item} (name : string) (initialSkills : Skills)
           (initialXp : float) (getLevelFromXp : float -> Level)
           (initialItems : list Item) : t Level Item :=
  mk name initialSkills initialXp getLevelFromXp
     (getLevelFromXp initialXp) initialItems.

Definition setXp {Level Item} (newXp : float) (this : t Level Item)
  : t Level Item :=
  let this1 := mk (name this) (skills this) newXp (getLevelFromXp this)
                  (xpLevel this) (items this) in
  mk (name this1) (skills this1) (xp this1) (getLevelFromXp this1)
     (recalculateXpLevel this1) (items this1).

(** [this.playerStats] is a property that no code of the class assigns:
    it reads [undefined], and reading [customSkills] off it throws before
    anything else happens. *)
Definition addSkill {Level Item} (skillName skillDescription : string)
           (skillPoints : float) (this : t Level Item) : Result Level Item :=
  Threw this.

Definition improveSkill {Level Item} (skillName : string)
           (improvePoints : float) (this : t Level Item)
  : Result Level Item :=
  if negb (has (skills this) skillName)
  then Returned "doesNotExist" this
  else
    match get (skills this) skillName with
    | None => Threw this
    | Some s =>
        Returned "success"
          (mk (name this)
              (set (skills this) skillName
                   (mkSkill (description s) (value s + improvePoints)%float))
              (xp this) (getLevelFromXp this) (xpLevel this) (items this))
    end.

(** Sequences of method calls. *)
Inductive Call :=
| SetXp (newXp : float)
| AddSkill (skillName skillDescription : string) (skillPoints : float)
| ImproveSkill (skillName : string) (improvePoints : float).

Definition after {Level Item} (r : Result Level Item) : t Level Item :=
  match r with
  | Returned _ this => this
  | Threw this => this
  end.

Definition perform {Level Item} (this : t Level Item) (c : Call)
  : t Level Item :=
  match c with
  | SetXp newXp => setXp newXp this
  | AddSkill n d p => after (addSkill n d p this)
  | ImproveSkill n p => after (improveSkill n p this)
  end.

End Player.


(** ** [RandomUtils] *)

Module RandomUtils.



End RandomUtils.

(** ** Concrete documents *)

Module Examples.

(** A document of [n] detached, unstyled [div] elements [0 .. n-1]. *)
Definition flat (n : nat) : Dom.t :=
  Dom.mk n (fun _ => None) (fun _ => []) (fun _ => Dom.DIV) (fun _ => None)
         (fun _ => false) (fun _ _ => EmptyString) (fun _ => None).

(** Elements [0] and [1] are the blocks; [2] is an element outside both. *)
Definition blocks : list Node := [0%nat; 1%nat].
Definition outside : Node := 2%nat.

(** An idle page over document [d]: clock at zero, no pending timer. *)
Definition idle (d : Dom.t) : Anim.World := Anim.mkWorld d 0 [] [] 0.

(** One element, fully transparent. *)
Definition transparent : Dom.t := Dom.setOpacity 0%nat 0%float (flat 1).

(** Seven content elements and the slideshow built over them with the
    default options: three rows, of three, three and one element. *)
Definition sevenDivs : list Node :=
  [0%nat; 1%nat; 2%nat; 3%nat; 4%nat; 5%nat; 6%nat].

Definition slides : Slideshow.Env * Dom.t :=
  Slideshow.prepareSlideshow sevenDivs None (flat 7).


End Examples.


(** * Properties *)

Unset Implicit Arguments.

(** ** The DOM heap *)

Lemma upd_same {A} (f : Node -> A) n v : Dom.upd f n v n = v.
Proof. unfold Dom.upd. now rewrite Nat.eqb_refl. Qed.

Lemma upd_other {A} (f : Node -> A) n v m : m <> n -> Dom.upd f n v m = f m.
Proof. unfold Dom.upd. intros H. apply Nat.eqb_neq in H. now rewrite H. Qed.

Lemma contains_refl d n : Dom.contains d n n = true.
Proof.
  unfold Dom.contains. destruct (Dom.nextId d); simpl; now rewrite Nat.eqb_refl.
Qed.

(** [contains] reads the parent pointers and the allocation pointer only. *)
Lemma isInclusiveAncestor_ext fuel d d' p c :
  Dom.parentNode d' = Dom.parentNode d ->
  Dom.isInclusiveAncestor fuel d' p c = Dom.isInclusiveAncestor fuel d p c.
Proof.
  intros E. revert c. induction fuel as [|fuel IH]; intros c; simpl.
  - reflexivity.
  - rewrite E. destruct (Dom.parentNode d c); [now rewrite IH | reflexivity].
Qed.

Lemma contains_setStyle d n prop v p c :
  Dom.contains (Dom.setStyle n prop v d) p c = Dom.contains d p c.
Proof. unfold Dom.contains. simpl. now apply isInclusiveAncestor_ext. Qed.

(** ** [whichIsParent] *)

Lemma whichIsParent_from_spec d c ps : forall i0,
  (whichIsParent_from d c ps i0 = -1 /\
   forall q, In q ps -> Dom.contains d q c = false) \/
  (exists k p, whichIsParent_from d c ps i0 = i0 + Z.of_nat k /\
     nth_error ps k = Some p /\ Dom.contains d p c = true /\
     forall j q, (j < k)%nat -> nth_error ps j = Some q ->
       Dom.contains d q c = false).
Proof.
  induction ps as [|p ps IH]; intros i0; simpl.
  - left. split; [reflexivity | intros q []].
  - destruct (Dom.contains d p c) eqn:Hp.
    + right. exists 0%nat, p. repeat split; try assumption.
      * lia.
      * intros j q Hj. lia.
    + destruct (IH (i0 + 1)) as [[Hr Hall] | (k & q & Hr & Hn & Hq & Hmin)].
      * left. split; [assumption|]. intros q [<- | Hin]; auto.
      * right. exists (S k), q. repeat split; try assumption.
        -- rewrite Hr. lia.
        -- intros [|j] q' Hj Hq'; simpl in Hq'.
           ++ now inversion Hq'; subst.
           ++ apply (Hmin j); [lia | assumption].
Qed.

Lemma whichIsParent_range d c ps :
  whichIsParent d c ps = -1 \/
  0 <= whichIsParent d c ps < Z.of_nat (List.length ps).
Proof.
  unfold whichIsParent.
  destruct (whichIsParent_from_spec d c ps 0)
    as [[Hr _] | (k & p & Hr & Hn & _)]; [now left | right].
  rewrite Hr. assert (k < List.length ps)%nat
    by (apply nth_error_Some; congruence). lia.
Qed.

Lemma whichIsParent_found d c ps (i : nat) :
  whichIsParent d c ps = Z.of_nat i <->
  exists p, nth_error ps i = Some p /\ Dom.contains d p c = true /\
    forall j q, (j < i)%nat -> nth_error ps j = Some q ->
      Dom.contains d q c = false.
Proof.
  unfold whichIsParent.
  destruct (whichIsParent_from_spec d c ps 0)
    as [[Hr Hall] | (k & p & Hr & Hn & Hp & Hmin)]; rewrite Hr; split.
  - lia.
  - intros (p & Hn & Hp & _). apply nth_error_In in Hn.
    rewrite (Hall p Hn) in Hp. discriminate.
  - intros E. assert (k = i) by lia. subst k. now exists p.
  - intros (p' & Hn' & Hp' & Hmin').
    destruct (Nat.lt_trichotomy k i) as [Hlt | [-> | Hgt]].
    + rewrite (Hmin' k p Hlt Hn) in Hp. discriminate.
    + reflexivity.
    + rewrite (Hmin i p' Hgt Hn') in Hp'. discriminate.
Qed.

Lemma whichIsParent_notFound d c ps :
  whichIsParent d c ps = -1 <->
  forall q, In q ps -> Dom.contains d q c = false.
Proof.
  unfold whichIsParent.
  destruct (whichIsParent_from_spec d c ps 0)
    as [[Hr Hall] | (k & p & Hr & Hn & Hp & Hmin)]; rewrite Hr; split; auto.
  - lia.
  - intros Hall. apply nth_error_In in Hn.
    rewrite (Hall p Hn) in Hp. discriminate.
Qed.

(** C9.  For every origin element and every ordered candidate list,
    [whichIsParent] returns the smallest index whose candidate contains the
    origin, where every element contains itself, and returns [-1] exactly
    when no candidate contains the origin; otherwise the result is an index
    of the list.  The function takes the document and returns a number: it
    has no access to any state it could change. *)
Theorem whichIsParent_first_containing
        (d : Dom.t) (origin : Node) (candidates : list Node) :
  Dom.contains d origin origin = true /\
  (forall i : nat,
     whichIsParent d origin candidates = Z.of_nat i <->
     exists p, nth_error candidates i = Some p /\
       Dom.contains d p origin = true /\
       forall j q, (j < i)%nat -> nth_error candidates j = Some q ->
         Dom.contains d q origin = false) /\
  (whichIsParent d origin candidates = -1 <->
     forall q, In q candidates -> Dom.contains d q origin = false) /\
  (whichIsParent d origin candidates = -1 \/
   0 <= whichIsParent d origin candidates < Z.of_nat (List.length candidates)).
Proof.
  split; [apply contains_refl|].
  split; [intros i; apply whichIsParent_found|].
  split; [apply whichIsParent_notFound | apply whichIsParent_range].
Qed.

(** ** [prepareElsAsSelectableBlocks] *)

Section SelectableFacts.
Import Selectable.

Lemma sameTree_refl d : sameTree d d.
Proof. split; reflexivity. Qed.

Lemma sameTree_setStyle d d' n prop v :
  sameTree d d' -> sameTree d (Dom.setStyle n prop v d').
Proof. intros [H1 H2]. split; simpl; assumption. Qed.

Lemma contains_sameTree d d' p c :
  sameTree d d' -> Dom.contains d' p c = Dom.contains d p c.
Proof.
  intros [H1 H2]. unfold Dom.contains. rewrite H2.
  now apply isInclusiveAncestor_ext.
Qed.

Lemma whichIsParent_sameTree d d' c ps :
  sameTree d d' -> whichIsParent d' c ps = whichIsParent d c ps.
Proof.
  intros H. unfold whichIsParent. generalize 0.
  induction ps as [|p ps IH]; intros i; simpl; [reflexivity|].
  rewrite (contains_sameTree _ _ p c H). now rewrite IH.
Qed.

Lemma item_of_nat {A} (l : list A) (i : nat) :
  item l (Z.of_nat i) = nth_error l i.
Proof.
  unfold item. destruct (Z.ltb_spec (Z.of_nat i) 0); [lia|].
  now rewrite Nat2Z.id.
Qed.

Lemma item_neg {A} (l : list A) : item l (-1) = None.
Proof. reflexivity. Qed.

Lemma item_In {A} (l : list A) i x : item l i = Some x -> In x l.
Proof.
  unfold item. destruct (i <? 0); [discriminate|]. apply nth_error_In.
Qed.

(** A resolved origin: the resolver's answer is the index of an element. *)
Lemma whichIsParent_item d c ps :
  whichIsParent d c ps <> -1 ->
  exists (i : nat) p, whichIsParent d c ps = Z.of_nat i /\
    item ps (Z.of_nat i) = Some p.
Proof.
  intros H. destruct (whichIsParent_range d c ps) as [E | R]; [contradiction|].
  exists (Z.to_nat (whichIsParent d c ps)).
  assert (Hlt : (Z.to_nat (whichIsParent d c ps) < List.length ps)%nat) by lia.
  apply nth_error_Some in Hlt.
  destruct (nth_error ps (Z.to_nat (whichIsParent d c ps))) as [p|] eqn:E;
    [|contradiction].
  exists p. rewrite item_of_nat. split; [lia | assumption].
Qed.


Lemma style_setStyle d n prop v m q :
  Dom.style (Dom.setStyle n prop v d) m q =
  if Nat.eqb m n then (if String.eqb q prop then v else Dom.style d n q)
  else Dom.style d m q.
Proof. simpl. unfold Dom.upd. now destruct (Nat.eqb m n). Qed.


Lemma setBorderColor_Done env i color st el :
  item (els env) i = Some el ->
  setBorderColor env i color st =
  Done (setDom (Dom.setStyle el "borderColor" color (dom st)) st).
Proof. intros H. unfold setBorderColor. now rewrite H. Qed.

Lemma setBorderColor_throws env color st :
  setBorderColor env (-1) color st = TypeError st.
Proof. reflexivity. Qed.

Lemma sameTree_prepare c els d d' :
  sameTree d d' -> sameTree d (fold_left (prepareEl c) els d').
Proof.
  revert d'. induction els as [|e els IH]; intros d' H; simpl; [assumption|].
  apply IH. unfold prepareEl. now repeat apply sameTree_setStyle.
Qed.




Lemma prepare_valid elements options d :
  activeIndexValid d (fst (prepareElsAsSelectableBlocks elements options d))
                   (snd (prepareElsAsSelectableBlocks elements options d)).
Proof.
  split; [|now left]. simpl. apply sameTree_prepare, sameTree_refl.
Qed.


(** Whatever the event, and whether or not its handler throws, the tree is
    untouched and [activeIndex] stays [-1] or a resolved index. *)
Lemma valid_dispatch d env e st :
  activeIndexValid d env st ->
  activeIndexValid d env (stateOf (dispatch env e st)).
Proof.
  intros [HT HA]. destruct e as [t | t | t]; simpl.
  - unfold onmouseenter.
    destruct (negb (activeIndex st =? whichIsParent (dom st) t (els env)));
      [|now split].
    unfold setBorderColor.
    destruct (item (els env) (whichIsParent (dom st) t (els env)));
      simpl; [|now split].
    split; [now apply sameTree_setStyle | assumption].
  - unfold onmouseleave.
    destruct (negb (activeIndex st =? whichIsParent (dom st) t (els env)));
      [|now split].
    unfold setBorderColor.
    destruct (item (els env) (whichIsParent (dom st) t (els env)));
      simpl; [|now split].
    split; [now apply sameTree_setStyle | assumption].
  - unfold onclick.
    assert (H1 : exists st1,
      (if negb (activeIndex st =? -1)
       then setBorderColor env (activeIndex st) (defaultColor env) st
       else Done st) = Done st1 /\ activeIndexValid d env st1 \/
      (if negb (activeIndex st =? -1)
       then setBorderColor env (activeIndex st) (defaultColor env) st
       else Done st) = TypeError st1 /\ activeIndexValid d env st1).
    { destruct (negb (activeIndex st =? -1)).
      - unfold setBorderColor. destruct (item (els env) (activeIndex st)).
        + eexists. left. split; [reflexivity|].
          split; [now apply sameTree_setStyle | assumption].
        + exists st. right. split; [reflexivity | now split].
      - exists st. left. split; [reflexivity | now split]. }
    destruct H1 as (st1 & [[-> V1] | [-> V1]]); simpl; [|assumption].
    destruct V1 as [HT1 HA1].
    rewrite (whichIsParent_sameTree _ _ t (els env) HT1).
    unfold setBorderColor.
    destruct (item (els env) (whichIsParent d t (els env))) as [el|] eqn:Hel;
      simpl; [|now split].
    assert (Hi : whichIsParent d t (els env) <> -1)
      by (intros E; rewrite E in Hel; discriminate).
    destruct (negb (activeIndex st1 =? whichIsParent d t (els env))); simpl;
      (split; [now apply sameTree_setStyle | right; now exists t]).
Qed.

Lemma valid_reachable d env st0 st :
  activeIndexValid d env st0 -> reachable env st0 st ->
  activeIndexValid d env st.
Proof.
  intros H0 R. induction R; [assumption | now apply valid_dispatch].
Qed.

(** A valid [activeIndex] other than [-1] is the index of an element. *)
Lemma valid_item d env st :
  activeIndexValid d env st -> activeIndex st <> -1 ->
  exists el, item (els env) (activeIndex st) = Some el.
Proof.
  intros [_ [E | (t & Ht & _)]] Hne; [contradiction|].
  destruct (whichIsParent_item d t (els env)) as (i & p & Hi & Hp);
    [congruence|].
  exists p. now rewrite <- Ht, Hi.
Qed.

Lemma borderColor_setActiveIndex i st m :
  borderColor (setActiveIndex i st) m = borderColor st m.
Proof. reflexivity. Qed.

Lemma borderColor_onSelect i st m :
  borderColor (onSelect i st) m = borderColor st m.
Proof. reflexivity. Qed.








(** The two colour conditions are needed: with
    [options = {mouseOverColor: 'red'}] the pointer entering two elements
    leaves both with the border colour ['red'], which is [selectedColor],
    while nothing is selected. *)
Lemma exclusive_selection_fails_for_equal_colors :
  let d := Examples.flat 3 in
  let options := Some (mkOptions None (Some "red"%string) None) in
  let env := fst (prepareElsAsSelectableBlocks Examples.blocks options d) in
  let st0 := snd (prepareElsAsSelectableBlocks Examples.blocks options d) in
  let es := [MouseEnter 0%nat; MouseEnter 1%nat] in
  Forall (resolved d env) es /\
  exists st, dispatchAll env es st0 = Done st /\
    borderColor st 0%nat = selectedColor env /\
    borderColor st 1%nat = selectedColor env /\
    currentSelection st = -1 /\
    ~ exclusive env st.
Proof.
  intros d options env st0 es. split.
  - repeat constructor; unfold resolved; vm_compute; discriminate.
  - exists (stateOf (dispatchAll env es st0)).
    split; [vm_compute; reflexivity|].
    split; [vm_compute; reflexivity|].
    split; [vm_compute; reflexivity|].
    split; [vm_compute; reflexivity|].
    intros [H _].
    assert (E : 0%nat = 1%nat).
    { apply H.
      - left; reflexivity.
      - right; left; reflexivity.
      - vm_compute; reflexivity.
      - vm_compute; reflexivity. }
    discriminate E.
Qed.

(** X2.  In every state the page can reach, a click resolved to index [i]
    runs to completion and leaves [activeIndex = i].  If [i] differs from
    the previous [activeIndex], [onSelect] is invoked exactly once, with
    argument [i], and a call of [currentSelection()] from inside it returns
    [i]: the assignment precedes the call.  If [i] is the previous
    [activeIndex], [onSelect] is not invoked and [activeIndex] keeps its
    value. *)
Theorem onclick_onSelect_once
        (d : Dom.t) (elements : list Node) (options : option Options)
        (st : State) (origin : Node) (i : nat) :
  let env := fst (prepareElsAsSelectableBlocks elements options d) in
  let st0 := snd (prepareElsAsSelectableBlocks elements options d) in
  reachable env st0 st ->
  whichIsParent (dom st) origin (els env) = Z.of_nat i ->
  exists st', onclick env origin st = Done st' /\
    currentSelection st' = Z.of_nat i /\
    (Z.of_nat i <> activeIndex st ->
       onSelectLog st' =
       onSelectLog st ++ [mkInvocation (Z.of_nat i) (Z.of_nat i)]) /\
    (Z.of_nat i = activeIndex st ->
       onSelectLog st' = onSelectLog st /\
       activeIndex st' = activeIndex st).
Proof.
  intros env st0 Hreach Hi.
  assert (V : activeIndexValid d env st)
    by (apply (valid_reachable d env st0 st); [apply prepare_valid | assumption]).
  assert (HT : sameTree d (dom st)) by apply V.
  assert (R : whichIsParent d origin (els env) <> -1)
    by (rewrite <- (whichIsParent_sameTree _ _ origin (els env) HT); lia).
  destruct (whichIsParent_item d origin (els env) R) as (k & p & Hk & Hp).
  rewrite <- Hk, <- (whichIsParent_sameTree _ _ origin (els env) HT), Hi in Hp.
  unfold onclick.
  assert (H1 : exists st1,
    (if negb (activeIndex st =? -1)
     then setBorderColor env (activeIndex st) (defaultColor env) st
     else Done st) = Done st1 /\ sameTree (dom st) (dom st1) /\
    activeIndex st1 = activeIndex st /\ onSelectLog st1 = onSelectLog st).
  { destruct (Z.eqb_spec (activeIndex st) (-1)) as [E | NE]; simpl.
    - exists st. repeat split; reflexivity.
    - destruct (valid_item _ _ _ V NE) as (n & Hn).
      rewrite (setBorderColor_Done _ _ _ _ _ Hn). eexists.
      repeat split; reflexivity. }
  destruct H1 as (st1 & -> & HT1 & HA1 & HL1). simpl.
  rewrite (whichIsParent_sameTree _ _ origin (els env) HT1), Hi.
  rewrite (setBorderColor_Done _ _ _ _ _ Hp). simpl.
  destruct (Z.eqb_spec (activeIndex st1) (Z.of_nat i)) as [E | NE]; simpl;
    eexists; (split; [reflexivity|]); simpl.
  - split; [reflexivity|]. split; [intros H; congruence|].
    intros _. split; congruence.
  - split; [reflexivity|]. split; [intros _; now rewrite HL1|].
    intros H. congruence.
Qed.

Lemma onclick_onSelect_once_witness :
  let env := fst (prepareElsAsSelectableBlocks Examples.blocks None
                    (Examples.flat 3)) in
  let st0 := snd (prepareElsAsSelectableBlocks Examples.blocks None
                    (Examples.flat 3)) in
  let st := stateOf (dispatch env (Click 1%nat) st0) in
  exists st', onclick env 0%nat st = Done st' /\
    currentSelection st' = 0 /\
    (0 <> activeIndex st ->
       onSelectLog st' = onSelectLog st ++ [mkInvocation 0 0]) /\
    (0 = activeIndex st ->
       onSelectLog st' = onSelectLog st /\
       activeIndex st' = activeIndex st).
Proof.
  intros env st0 st.
  apply (onclick_onSelect_once (Examples.flat 3) Examples.blocks None
           st 0%nat 0%nat).
  - apply reach_step, reach_init.
  - reflexivity.
Defined.

(** X3.  A pointer-enter or pointer-leave whose origin lies in none of the
    elements changes nothing: it runs to completion when nothing is
    selected, and throws (reading [els[-1].style]) when something is. *)
Theorem unresolved_hover env st t :
  whichIsParent (dom st) t (els env) = -1 ->
  onmouseenter env t st =
    (if activeIndex st =? -1 then Done st else TypeError st) /\
  onmouseleave env t st =
    (if activeIndex st =? -1 then Done st else TypeError st).
Proof.
  intros H. unfold onmouseenter, onmouseleave. rewrite H.
  destruct (activeIndex st =? -1); split; reflexivity.
Qed.

Lemma unresolved_hover_witness :
  let env := fst (prepareElsAsSelectableBlocks Examples.blocks None
                    (Examples.flat 3)) in
  let st0 := snd (prepareElsAsSelectableBlocks Examples.blocks None
                    (Examples.flat 3)) in
  let st1 := stateOf (onclick env 0%nat st0) in
  (onmouseenter env Examples.outside st1 =
     (if activeIndex st1 =? -1 then Done st1 else TypeError st1) /\
   onmouseleave env Examples.outside st1 =
     (if activeIndex st1 =? -1 then Done st1 else TypeError st1)) /\
  activeIndex st1 = 0.
Proof.
  intros env st0 st1. split.
  - apply (unresolved_hover env st1 Examples.outside).
    vm_compute. reflexivity.
  - vm_compute. reflexivity.
Defined.

Lemma item_range {A} (l : list A) i x :
  item l i = Some x -> 0 <= i < Z.of_nat (List.length l).
Proof.
  unfold item. destruct (Z.ltb_spec i 0); [discriminate|]. intros Hx.
  assert (Z.to_nat i < List.length l)%nat
    by (apply nth_error_Some; congruence). lia.
Qed.

Lemma neighboursDiffer_snoc l x :
  SelectableLog.neighboursDiffer l -> last l (-1) <> x ->
  SelectableLog.neighboursDiffer (l ++ [x]).
Proof.
  induction l as [|a l IH]; intros H L; [exact I|].
  destruct l as [|b l]; simpl in *.
  - split; [assumption | exact I].
  - destruct H as [Hab Hrest]. split; [assumption|]. now apply IH.
Qed.

Lemma consistent_same env st st' :
  activeIndex st' = activeIndex st -> onSelectLog st' = onSelectLog st ->
  SelectableLog.consistent env st -> SelectableLog.consistent env st'.
Proof.
  unfold SelectableLog.consistent, currentSelection. intros -> ->. auto.
Qed.

Lemma consistent_dispatch env e st :
  SelectableLog.consistent env st ->
  SelectableLog.consistent env (stateOf (dispatch env e st)).
Proof.
  intros C. destruct e as [t | t | t]; simpl.
  - unfold onmouseenter.
    destruct (negb (activeIndex st =? whichIsParent (dom st) t (els env)));
      [|assumption].
    unfold setBorderColor.
    destruct (item (els env) (whichIsParent (dom st) t (els env)));
      simpl; [|assumption].
    now apply (consistent_same env st).
  - unfold onmouseleave.
    destruct (negb (activeIndex st =? whichIsParent (dom st) t (els env)));
      [|assumption].
    unfold setBorderColor.
    destruct (item (els env) (whichIsParent (dom st) t (els env)));
      simpl; [|assumption].
    now apply (consistent_same env st).
  - unfold onclick.
    assert (H1 : exists st1,
      ((if negb (activeIndex st =? -1)
        then setBorderColor env (activeIndex st) (defaultColor env) st
        else Done st) = Done st1 \/
       (if negb (activeIndex st =? -1)
        then setBorderColor env (activeIndex st) (defaultColor env) st
        else Done st) = TypeError st1) /\
      activeIndex st1 = activeIndex st /\ onSelectLog st1 = onSelectLog st).
    { destruct (negb (activeIndex st =? -1)).
      - unfold setBorderColor. destruct (item (els env) (activeIndex st)).
        + eexists. split; [left; reflexivity | split; reflexivity].
        + exists st. split; [right; reflexivity | split; reflexivity].
      - exists st. split; [left; reflexivity | split; reflexivity]. }
    destruct H1 as (st1 & [-> | ->] & HA & HL); simpl;
      [|now apply (consistent_same env st)].
    assert (C1 : SelectableLog.consistent env st1)
      by now apply (consistent_same env st).
    unfold setBorderColor.
    destruct (item (els env) (whichIsParent (dom st1) t (els env)))
      as [el|] eqn:Hel; simpl; [|assumption].
    pose proof (item_range _ _ _ Hel) as Hrange.
    destruct (Z.eqb_spec (activeIndex st1) (whichIsParent (dom st1) t (els env)))
      as [E | NE]; simpl.
    + apply (consistent_same env st1); [simpl; congruence | reflexivity | assumption].
    + destruct C1 as (F & N & L). unfold SelectableLog.consistent. simpl.
      split; [|split].
      * apply Forall_app. split; [assumption|].
        constructor; [|constructor]. simpl. now split.
      * rewrite map_app. simpl. apply neighboursDiffer_snoc; [assumption|].
        unfold currentSelection in L. now rewrite <- L.
      * rewrite map_app. simpl. now rewrite last_last.
Qed.

(** X4.  In every state the page can reach: each [onSelect] invocation was
    handed an index of [els] and would have read the same index from
    [currentSelection()]; two invocations in a row never carry the same
    index; and [currentSelection()] is the index handed to the latest
    invocation, or [-1] if [onSelect] was never invoked. *)
Theorem onSelect_log_consistent
        (d : Dom.t) (elements : list Node) (options : option Options)
        (st : State) :
  let env := fst (prepareElsAsSelectableBlocks elements options d) in
  let st0 := snd (prepareElsAsSelectableBlocks elements options d) in
  reachable env st0 st -> SelectableLog.consistent env st.
Proof.
  intros env st0 R. induction R as [|st e R IH].
  - split; [constructor | split; [exact I | reflexivity]].
  - now apply consistent_dispatch.
Qed.

Lemma onSelect_log_consistent_witness :
  let env := fst (prepareElsAsSelectableBlocks Examples.blocks None
                    (Examples.flat 3)) in
  let st0 := snd (prepareElsAsSelectableBlocks Examples.blocks None
                    (Examples.flat 3)) in
  SelectableLog.consistent env
    (stateOf (dispatch env (Click 1%nat)
       (stateOf (dispatch env (Click Examples.outside)
          (stateOf (dispatch env (Click 0%nat)
             (stateOf (dispatch env (Click 0%nat) st0)))))))).
Proof.
  intros env st0.
  apply (onSelect_log_consistent (Examples.flat 3) Examples.blocks None).
  repeat apply reach_step. apply reach_init.
Defined.











End SelectableFacts.


(** ** Timers and fades *)

Section AnimFacts.
Import Anim Timeline.

Lemma opacity_setOpacity_same d n v :
  Dom.opacity (Dom.setOpacity n v d) n = Some v.
Proof. simpl. apply upd_same. Qed.

Lemma opacity_setOpacity_other d n v m :
  m <> n -> Dom.opacity (Dom.setOpacity n v d) m = Dom.opacity d m.
Proof. intros H. simpl. now apply upd_other. Qed.

Lemma sameExceptOpacity_refl d : sameExceptOpacity d d.
Proof. repeat split. Qed.

Lemma sameExceptOpacity_setOpacity d d' n v :
  sameExceptOpacity d d' -> sameExceptOpacity d (Dom.setOpacity n v d').
Proof. intros H. exact H. Qed.

Lemma sameExceptOpacity_trans d1 d2 d3 :
  sameExceptOpacity d1 d2 -> sameExceptOpacity d2 d3 ->
  sameExceptOpacity d1 d3.
Proof.
  intros (A1 & A2 & A3 & A4 & A5 & A6 & A7) (B1 & B2 & B3 & B4 & B5 & B6 & B7).
  repeat split; congruence.
Qed.

Lemma turn_single w dl du tk :
  timers w = [mkTimer dl du tk] ->
  turn w = Some (settle (runTask tk
             (mkWorld (dom w) (Z.max (now w) du) [] (trace w) (uncaught w)))).
Proof.
  intros H. unfold turn. rewrite H. simpl.
  destruct (runTask tk _); reflexivity.
Qed.

Lemma run_idle fuel w : timers w = [] -> run fuel w = w.
Proof.
  intros H. destruct fuel; [reflexivity|]. simpl. unfold turn. now rewrite H.
Qed.

Lemma run_add a : forall b w, run (a + b) w = run b (run a w).
Proof.
  induction a as [|a IH]; intros b w; [reflexivity|]. simpl.
  destruct (turn w) as [w'|] eqn:E; [apply IH|].
  destruct b; [reflexivity|]. simpl. now rewrite E.
Qed.

Lemma ticksIn_pos fuel : forall o n, ticksIn fuel o = Some n -> (1 <= n)%nat.
Proof.
  induction fuel as [|fuel IH]; intros o n H; simpl in H; [discriminate|].
  destruct (1 <? o + 0.1)%float.
  - inversion H. lia.
  - destruct (ticksIn fuel (o + 0.1)%float); simpl in H; inversion H. lia.
Qed.

Lemma ticksOut_pos fuel : forall o n, ticksOut fuel o = Some n -> (1 <= n)%nat.
Proof.
  induction fuel as [|fuel IH]; intros o n H; simpl in H; [discriminate|].
  destruct (o - 0.1 <? 0)%float.
  - inversion H. lia.
  - destruct (ticksOut fuel (o - 0.1)%float); simpl in H; inversion H. lia.
Qed.

(** A pending fade-in tick, alone in the queue, runs to its completion. *)
Lemma run_fadeIn_ticks el cb fuel : forall n o w dl du,
  ticksIn fuel o = Some n ->
  Dom.opacity (dom w) el = Some o ->
  timers w = [mkTimer dl du (FadeInTick el cb)] ->
  exists wend, run n w = settle (invoke cb wend) /\
    now wend = Z.max (now w) du + 80 * (Z.of_nat n - 1) /\
    timers wend = [] /\
    trace wend =
      trace w ++ reschedules (FadeInTick el cb) (Z.max (now w) du) (n - 1) /\
    uncaught wend = uncaught w /\
    sameExceptOpacity (dom w) (dom wend) /\
    Dom.opacity (dom wend) el = Some 1%float /\
    (forall m, m <> el -> Dom.opacity (dom wend) m = Dom.opacity (dom w) m).
Proof.
  induction fuel as [|fuel IH]; intros n o w dl du Hn Ho Ht; simpl in Hn;
    [discriminate|].
  destruct (1 <? o + 0.1)%float eqn:Hc.
  - inversion Hn; subst n. simpl. rewrite (turn_single w dl du _ Ht).
    unfold runTask, parseOpacity. simpl. rewrite Ho, Hc.
    eexists. split; [reflexivity|]. simpl.
    split; [lia|]. split; [reflexivity|].
    split; [now rewrite app_nil_r|]. split; [reflexivity|].
    split; [apply sameExceptOpacity_setOpacity, sameExceptOpacity_refl|].
    split; [apply upd_same|]. intros m Hm. now apply upd_other.
  - destruct (ticksIn fuel (o + 0.1)%float) as [n'|] eqn:Hn'; simpl in Hn;
      [|discriminate].
    inversion Hn; subst n. clear Hn.
    pose proof (ticksIn_pos _ _ _ Hn') as Hpos.
    simpl run. rewrite (turn_single w dl du _ Ht).
    unfold runTask, parseOpacity. simpl dom. rewrite Ho, Hc.
    unfold settle, fadeIn, ensureOpacity, setOpacity, setDom. simpl dom.
    rewrite opacity_setOpacity_same. unfold setTimeout.
    cbn [now trace dom timers uncaught].
    match goal with |- context [run n' ?w2] =>
      destruct (IH n' (o + 0.1)%float w2 80
                   (Z.max (now w) du + Z.max 0 80) Hn')
        as (wend & Hr & Hnow & Htm & Htr & Hu & Hs & Hop & Hoth)
    end.
    { simpl. apply upd_same. }
    { reflexivity. }
    exists wend. split; [exact Hr|].
    cbn [now trace dom timers uncaught] in *.
    change (stepOf None) with 80 in *.
    split; [lia|]. split; [assumption|].
    split.
    { rewrite Htr, <- app_assoc. f_equal.
      change (stepOf None) with 80.
      replace (Z.max (Z.max (now w) du) (Z.max (now w) du + Z.max 0 80))
        with (Z.max (now w) du + 80) by lia.
      destruct n' as [|n'']; [lia|]. simpl. now rewrite Nat.sub_0_r. }
    split; [assumption|]. split; [exact Hs|]. split; [assumption|].
    intros m Hm. rewrite (Hoth m Hm). now apply upd_other.
Qed.

(** A pending fade-out tick, alone in the queue, runs to its completion. *)
Lemma run_fadeOut_ticks el cb fuel : forall n o w dl du,
  ticksOut fuel o = Some n ->
  Dom.opacity (dom w) el = Some o ->
  timers w = [mkTimer dl du (FadeOutTick el cb)] ->
  exists wend, run n w = settle (invoke cb wend) /\
    now wend = Z.max (now w) du + 80 * (Z.of_nat n - 1) /\
    timers wend = [] /\
    trace wend =
      trace w ++ reschedules (FadeOutTick el cb) (Z.max (now w) du) (n - 1) /\
    uncaught wend = uncaught w /\
    sameExceptOpacity (dom w) (dom wend) /\
    Dom.opacity (dom wend) el = Some 0%float /\
    (forall m, m <> el -> Dom.opacity (dom wend) m = Dom.opacity (dom w) m).
Proof.
  induction fuel as [|fuel IH]; intros n o w dl du Hn Ho Ht; simpl in Hn;
    [discriminate|].
  destruct (o - 0.1 <? 0)%float eqn:Hc.
  - inversion Hn; subst n. simpl. rewrite (turn_single w dl du _ Ht).
    unfold runTask, parseOpacity. simpl. rewrite Ho, Hc.
    eexists. split; [reflexivity|]. simpl.
    split; [lia|]. split; [reflexivity|].
    split; [now rewrite app_nil_r|]. split; [reflexivity|].
    split; [apply sameExceptOpacity_setOpacity, sameExceptOpacity_refl|].
    split; [apply upd_same|]. intros m Hm. now apply upd_other.
  - destruct (ticksOut fuel (o - 0.1)%float) as [n'|] eqn:Hn'; simpl in Hn;
      [|discriminate].
    inversion Hn; subst n. clear Hn.
    pose proof (ticksOut_pos _ _ _ Hn') as Hpos.
    simpl run. rewrite (turn_single w dl du _ Ht).
    unfold runTask, parseOpacity. simpl dom. rewrite Ho, Hc.
    unfold settle, fadeOut, ensureOpacity, setOpacity, setDom. simpl dom.
    rewrite opacity_setOpacity_same. unfold setTimeout.
    cbn [now trace dom timers uncaught].
    match goal with |- context [run n' ?w2] =>
      destruct (IH n' (o - 0.1)%float w2 80
                   (Z.max (now w) du + Z.max 0 80) Hn')
        as (wend & Hr & Hnow & Htm & Htr & Hu & Hs & Hop & Hoth)
    end.
    { simpl. apply upd_same. }
    { reflexivity. }
    exists wend. split; [exact Hr|].
    cbn [now trace dom timers uncaught] in *.
    change (stepOf None) with 80 in *.
    split; [lia|]. split; [assumption|].
    split.
    { rewrite Htr, <- app_assoc. f_equal.
      change (stepOf None) with 80.
      replace (Z.max (Z.max (now w) du) (Z.max (now w) du + Z.max 0 80))
        with (Z.max (now w) du + 80) by lia.
      destruct n' as [|n'']; [lia|]. simpl. now rewrite Nat.sub_0_r. }
    split; [assumption|]. split; [exact Hs|]. split; [assumption|].
    intros m Hm. rewrite (Hoth m Hm). now apply upd_other.
Qed.

Lemma ensureOpacity_start el w :
  Dom.opacity (dom (ensureOpacity el w)) el = Some (startOpacity (dom w) el) /\
  sameExceptOpacity (dom w) (dom (ensureOpacity el w)) /\
  (forall m, m <> el ->
     Dom.opacity (dom (ensureOpacity el w)) m = Dom.opacity (dom w) m) /\
  now (ensureOpacity el w) = now w /\
  timers (ensureOpacity el w) = timers w /\
  trace (ensureOpacity el w) = trace w /\
  uncaught (ensureOpacity el w) = uncaught w.
Proof.
  unfold ensureOpacity, startOpacity.
  destruct (Dom.opacity (dom w) el) as [o|] eqn:E; simpl.
  - rewrite E. repeat split; reflexivity.
  - split; [apply upd_same|].
    split; [apply sameExceptOpacity_setOpacity, sameExceptOpacity_refl|].
    split; [intros m Hm; now apply upd_other|]. repeat split; reflexivity.
Qed.

(** [fadeIn] called on an idle page, with any callback. *)
Lemma fadeIn_runs el cb opts fuel n w :
  timers w = [] ->
  ticksIn fuel (startOpacity (dom w) el) = Some n ->
  exists wend, run n (fadeIn el cb opts w) = settle (invoke cb wend) /\
    now wend = now w + Z.max 0 (stepOf opts) + 80 * (Z.of_nat n - 1) /\
    timers wend = [] /\
    trace wend =
      trace w ++ Scheduled (now w) (stepOf opts) (FadeInTick el cb)
        :: reschedules (FadeInTick el cb) (now w + Z.max 0 (stepOf opts))
                       (n - 1) /\
    uncaught wend = uncaught w /\
    sameExceptOpacity (dom w) (dom wend) /\
    Dom.opacity (dom wend) el = Some 1%float /\
    (forall m, m <> el -> Dom.opacity (dom wend) m = Dom.opacity (dom w) m).
Proof.
  intros Hidle Hn.
  destruct (ensureOpacity_start el w) as (Ho & Hs & Hoth & Hnow & Htm & Htr & Hu).
  destruct (run_fadeIn_ticks el cb fuel n _ (fadeIn el cb opts w)
              (stepOf opts) (now w + Z.max 0 (stepOf opts)) Hn)
    as (wend & Hr & Hnow' & Htm' & Htr' & Hu' & Hs' & Hop' & Hoth').
  { exact Ho. }
  { unfold fadeIn, setTimeout. cbn [timers]. now rewrite Htm, Hidle, Hnow. }
  exists wend. split; [exact Hr|].
  unfold fadeIn, setTimeout in Hnow', Htr', Hu', Hs', Hoth'.
  cbn [now trace dom timers uncaught] in *.
  rewrite Hnow in *. rewrite Htr in *.
  replace (Z.max (now w) (now w + Z.max 0 (stepOf opts)))
    with (now w + Z.max 0 (stepOf opts)) in * by lia.
  split; [exact Hnow'|]. split; [assumption|].
  split; [now rewrite Htr', <- app_assoc|].
  split; [congruence|].
  split; [now apply (sameExceptOpacity_trans _ _ _ Hs)|].
  split; [assumption|]. intros m Hm. rewrite (Hoth' m Hm). now apply Hoth.
Qed.

(** [fadeOut] called on an idle page, with any callback. *)
Lemma fadeOut_runs el cb opts fuel n w :
  timers w = [] ->
  ticksOut fuel (startOpacity (dom w) el) = Some n ->
  exists wend, run n (fadeOut el cb opts w) = settle (invoke cb wend) /\
    now wend = now w + Z.max 0 (stepOf opts) + 80 * (Z.of_nat n - 1) /\
    timers wend = [] /\
    trace wend =
      trace w ++ Scheduled (now w) (stepOf opts) (FadeOutTick el cb)
        :: reschedules (FadeOutTick el cb) (now w + Z.max 0 (stepOf opts))
                       (n - 1) /\
    uncaught wend = uncaught w /\
    sameExceptOpacity (dom w) (dom wend) /\
    Dom.opacity (dom wend) el = Some 0%float /\
    (forall m, m <> el -> Dom.opacity (dom wend) m = Dom.opacity (dom w) m).
Proof.
  intros Hidle Hn.
  destruct (ensureOpacity_start el w) as (Ho & Hs & Hoth & Hnow & Htm & Htr & Hu).
  destruct (run_fadeOut_ticks el cb fuel n _ (fadeOut el cb opts w)
              (stepOf opts) (now w + Z.max 0 (stepOf opts)) Hn)
    as (wend & Hr & Hnow' & Htm' & Htr' & Hu' & Hs' & Hop' & Hoth').
  { exact Ho. }
  { unfold fadeOut, setTimeout. cbn [timers]. now rewrite Htm, Hidle, Hnow. }
  exists wend. split; [exact Hr|].
  unfold fadeOut, setTimeout in Hnow', Htr', Hu', Hs', Hoth'.
  cbn [now trace dom timers uncaught] in *.
  rewrite Hnow in *. rewrite Htr in *.
  replace (Z.max (now w) (now w + Z.max 0 (stepOf opts)))
    with (now w + Z.max 0 (stepOf opts)) in * by lia.
  split; [exact Hnow'|]. split; [assumption|].
  split; [now rewrite Htr', <- app_assoc|].
  split; [congruence|].
  split; [now apply (sameExceptOpacity_trans _ _ _ Hs)|].
  split; [assumption|]. intros m Hm. rewrite (Hoth' m Hm). now apply Hoth.
Qed.


(** X7.  [fadeIn] called on an idle page, for an element whose fade takes
    [n] ticks from its starting opacity (1 when unset): the event loop
    comes to rest after [n] turns with the element's opacity exactly 1 and
    the callback invoked exactly once, by the last tick.  Only the first
    tick is scheduled with the configured [fadeTimeStep]; each of the
    [n - 1] later ticks is scheduled with the default 80 ms, since the
    recursive call passes no options.  No style property, no other
    element's opacity and no part of the tree is changed. *)
Theorem fadeIn_completes el id opts fuel n k w :
  timers w = [] ->
  ticksIn fuel (startOpacity (dom w) el) = Some n ->
  let w' := run (n + k) (fadeIn el (UserCallback id) opts w) in
  let first := now w + Z.max 0 (stepOf opts) in
  let finish := first + 80 * (Z.of_nat n - 1) in
  timers w' = [] /\ now w' = finish /\ uncaught w' = uncaught w /\
  trace w' =
    trace w ++ Scheduled (now w) (stepOf opts) (FadeInTick el (UserCallback id))
      :: reschedules (FadeInTick el (UserCallback id)) first (n - 1)
      ++ [Called id finish] /\
  Dom.opacity (dom w') el = Some 1%float /\
  (forall m, m <> el -> Dom.opacity (dom w') m = Dom.opacity (dom w) m) /\
  sameExceptOpacity (dom w) (dom w').
Proof.
  intros Hidle Hn w' first finish.
  destruct (fadeIn_runs el (UserCallback id) opts fuel n w Hidle Hn)
    as (wend & Hr & Hnow & Htm & Htr & Hu & Hs & Hop & Hoth).
  unfold w'. rewrite run_add, Hr. simpl invoke. unfold settle.
  rewrite run_idle by exact Htm. cbn [now trace dom timers uncaught].
  split; [assumption|]. split; [exact Hnow|]. split; [assumption|].
  split.
  { rewrite Htr, Hnow, <- app_assoc. reflexivity. }
  split; [assumption|]. split; assumption.
Qed.

Lemma fadeIn_completes_witness :
  let w := Examples.idle Examples.transparent in
  let w' := run (11 + 5)
              (fadeIn 0%nat (UserCallback 7)
                 (Some (mkFadeOptions (Some 10))) w) in
  timers w' = [] /\ now w' = 0 + Z.max 0 10 + 80 * (Z.of_nat 11 - 1) /\
  uncaught w' = 0%nat /\
  trace w' =
    [] ++ Scheduled 0 10 (FadeInTick 0%nat (UserCallback 7))
      :: reschedules (FadeInTick 0%nat (UserCallback 7)) (0 + Z.max 0 10)
                     (11 - 1)
      ++ [Called 7 (0 + Z.max 0 10 + 80 * (Z.of_nat 11 - 1))] /\
  Dom.opacity (dom w') 0%nat = Some 1%float /\
  (forall m, m <> 0%nat ->
     Dom.opacity (dom w') m = Dom.opacity Examples.transparent m) /\
  sameExceptOpacity Examples.transparent (dom w').
Proof.
  apply (fadeIn_completes 0%nat 7%nat (Some (mkFadeOptions (Some 10)))
           20%nat 11%nat 5%nat (Examples.idle Examples.transparent)).
  - reflexivity.
  - vm_compute. reflexivity.
Defined.

(** X8.  [fadeOut] called on an idle page, for an element whose fade takes
    [n] ticks from its starting opacity (1 when unset): the event loop
    comes to rest after [n] turns with the element's opacity exactly 0 and
    the callback invoked exactly once, by the last tick; the first tick
    waits the configured [fadeTimeStep] and every later one 80 ms; only
    the element's opacity is changed, its [display] in particular is
    not. *)
Theorem fadeOut_completes el id opts fuel n k w :
  timers w = [] ->
  ticksOut fuel (startOpacity (dom w) el) = Some n ->
  let w' := run (n + k) (fadeOut el (UserCallback id) opts w) in
  let first := now w + Z.max 0 (stepOf opts) in
  let finish := first + 80 * (Z.of_nat n - 1) in
  timers w' = [] /\ now w' = finish /\ uncaught w' = uncaught w /\
  trace w' =
    trace w ++ Scheduled (now w) (stepOf opts) (FadeOutTick el (UserCallback id))
      :: reschedules (FadeOutTick el (UserCallback id)) first (n - 1)
      ++ [Called id finish] /\
  Dom.opacity (dom w') el = Some 0%float /\
  (forall m, m <> el -> Dom.opacity (dom w') m = Dom.opacity (dom w) m) /\
  sameExceptOpacity (dom w) (dom w').
Proof.
  intros Hidle Hn w' first finish.
  destruct (fadeOut_runs el (UserCallback id) opts fuel n w Hidle Hn)
    as (wend & Hr & Hnow & Htm & Htr & Hu & Hs & Hop & Hoth).
  unfold w'. rewrite run_add, Hr. simpl invoke. unfold settle.
  rewrite run_idle by exact Htm. cbn [now trace dom timers uncaught].
  split; [assumption|]. split; [exact Hnow|]. split; [assumption|].
  split.
  { rewrite Htr, Hnow, <- app_assoc. reflexivity. }
  split; [assumption|]. split; assumption.
Qed.

Lemma fadeOut_completes_witness :
  let w := Examples.idle (Examples.flat 1) in
  let w' := run (11 + 0) (fadeOut 0%nat (UserCallback 7) None w) in
  timers w' = [] /\ now w' = 0 + Z.max 0 80 + 80 * (Z.of_nat 11 - 1) /\
  uncaught w' = 0%nat /\
  trace w' =
    [] ++ Scheduled 0 80 (FadeOutTick 0%nat (UserCallback 7))
      :: reschedules (FadeOutTick 0%nat (UserCallback 7)) (0 + Z.max 0 80)
                     (11 - 1)
      ++ [Called 7 (0 + Z.max 0 80 + 80 * (Z.of_nat 11 - 1))] /\
  Dom.opacity (dom w') 0%nat = Some 0%float /\
  (forall m, m <> 0%nat ->
     Dom.opacity (dom w') m = Dom.opacity (Examples.flat 1) m) /\
  sameExceptOpacity (Examples.flat 1) (dom w').
Proof.
  apply (fadeOut_completes 0%nat 7%nat None 20%nat 11%nat 0%nat
           (Examples.idle (Examples.flat 1))).
  - reflexivity.
  - vm_compute. reflexivity.
Defined.

(** X9.  A fade towards the bound the element already sits at takes one
    tick: [fadeIn] on an idle page for an element whose opacity is unset
    or 1, and [fadeOut] for an element whose opacity is 0, invoke the
    callback when the first timer fires, after the configured
    [fadeTimeStep], with the opacity at the bound. *)
Theorem fade_at_bound_takes_one_tick el id opts w :
  timers w = [] ->
  (Dom.opacity (dom w) el = None \/ Dom.opacity (dom w) el = Some 1%float ->
   let w' := run 1 (fadeIn el (UserCallback id) opts w) in
   timers w' = [] /\
   trace w' =
     trace w ++ [Scheduled (now w) (stepOf opts)
                           (FadeInTick el (UserCallback id));
                 Called id (now w + Z.max 0 (stepOf opts))] /\
   Dom.opacity (dom w') el = Some 1%float) /\
  (Dom.opacity (dom w) el = Some 0%float ->
   let w' := run 1 (fadeOut el (UserCallback id) opts w) in
   timers w' = [] /\
   trace w' =
     trace w ++ [Scheduled (now w) (stepOf opts)
                           (FadeOutTick el (UserCallback id));
                 Called id (now w + Z.max 0 (stepOf opts))] /\
   Dom.opacity (dom w') el = Some 0%float).
Proof.
  intros Hidle. split.
  - intros Ho w'.
    assert (Hn : ticksIn 1 (startOpacity (dom w) el) = Some 1%nat).
    { unfold startOpacity. destruct Ho as [-> | ->]; vm_compute; reflexivity. }
    destruct (fadeIn_runs el (UserCallback id) opts 1 1 w Hidle Hn)
      as (wend & Hr & Hnow & Htm & Htr & Hu & Hs & Hop & Hoth).
    unfold w'. rewrite Hr. simpl invoke. unfold settle.
    cbn [now trace dom timers uncaught].
    split; [assumption|]. split; [|assumption].
    rewrite Htr, Hnow, <- app_assoc. change (1 - 1)%nat with 0%nat.
    cbn [reschedules app]. do 3 f_equal. f_equal. lia.
  - intros Ho w'.
    assert (Hn : ticksOut 1 (startOpacity (dom w) el) = Some 1%nat).
    { unfold startOpacity. rewrite Ho. vm_compute. reflexivity. }
    destruct (fadeOut_runs el (UserCallback id) opts 1 1 w Hidle Hn)
      as (wend & Hr & Hnow & Htm & Htr & Hu & Hs & Hop & Hoth).
    unfold w'. rewrite Hr. simpl invoke. unfold settle.
    cbn [now trace dom timers uncaught].
    split; [assumption|]. split; [|assumption].
    rewrite Htr, Hnow, <- app_assoc. change (1 - 1)%nat with 0%nat.
    cbn [reschedules app]. do 3 f_equal. f_equal. lia.
Qed.

Lemma fade_at_bound_takes_one_tick_witness :
  let w := Examples.idle Examples.transparent in
  (Dom.opacity (dom w) 0%nat = None \/
   Dom.opacity (dom w) 0%nat = Some 1%float ->
   let w' := run 1 (fadeIn 0%nat (UserCallback 7) None w) in
   timers w' = [] /\
   trace w' =
     trace w ++ [Scheduled (now w) (stepOf None)
                           (FadeInTick 0%nat (UserCallback 7));
                 Called 7 (now w + Z.max 0 (stepOf None))] /\
   Dom.opacity (dom w') 0%nat = Some 1%float) /\
  (Dom.opacity (dom w) 0%nat = Some 0%float ->
   let w' := run 1 (fadeOut 0%nat (UserCallback 7) None w) in
   timers w' = [] /\
   trace w' =
     trace w ++ [Scheduled (now w) (stepOf None)
                           (FadeOutTick 0%nat (UserCallback 7));
                 Called 7 (now w + Z.max 0 (stepOf None))] /\
   Dom.opacity (dom w') 0%nat = Some 0%float).
Proof.
  apply (fade_at_bound_takes_one_tick 0%nat 7%nat None
           (Examples.idle Examples.transparent)).
  reflexivity.
Defined.











End AnimFacts.


(** ** Slideshow navigation *)

Section NavigationFacts.
Import Anim Timeline Slideshow Navigation.

Lemma style_setOpacity d n v : Dom.style (Dom.setOpacity n v d) = Dom.style d.
Proof. reflexivity. Qed.

(** What a click on an arrow does when both rows exist. *)
Lemma arrow_click_runs
      (env : Env) (forward : bool) (target : Node) (index : Z)
      (tr other : Node) (fuel n k : nat) (w : World) :
  timers w = [] ->
  trElIndexForThisButton (dom w) target = Some (Some index) ->
  item (trEls env) index = Some tr ->
  item (trEls env) (if forward then index + 1 else index - 1) = Some other ->
  tr <> other ->
  ticksOut fuel (startOpacity (dom w) tr) = Some n ->
  let handler := if forward then rightButton_onclick else leftButton_onclick in
  let opts := Some (mkFadeOptions (Some (step env))) in
  let w' := run (n + k) (settle (handler env target w)) in
  timers w' = [] /\ uncaught w' = uncaught w /\
  now w' = now w + Z.max 0 (stepOf opts) + 80 * (Z.of_nat n - 1) /\
  Dom.style (dom w') tr "display" = "none"%string /\
  Dom.opacity (dom w') tr = Some 0%float /\
  Dom.style (dom w') other "display" = "inline"%string /\
  Dom.opacity (dom w') other = Some 1%float /\
  (forall m, m <> tr -> m <> other ->
     Dom.style (dom w') m = Dom.style (dom w) m /\
     Dom.opacity (dom w') m = Dom.opacity (dom w) m) /\
  (forall m prop, prop <> "display"%string ->
     Dom.style (dom w') m prop = Dom.style (dom w) m prop) /\
  Dom.childNodes (dom w') = Dom.childNodes (dom w) /\
  Dom.parentNode (dom w') = Dom.parentNode (dom w) /\
  Dom.tagName (dom w') = Dom.tagName (dom w) /\
  Dom.textContent (dom w') = Dom.textContent (dom w) /\
  Dom.disabled (dom w') = Dom.disabled (dom w).
Proof.
  intros Hidle Hidx Htr Hother Hne Hn handler opts w'.
  set (cb := (if forward then RightArrowDone else LeftArrowDone)
               (trEls env) index).
  assert (Hh : handler env target w = Done (fadeOut tr cb opts w)).
  { unfold handler, cb, rightButton_onclick, leftButton_onclick.
    destruct forward; unfold arrow_onclick; now rewrite Hidx, Htr. }
  assert (Hcb : forall x, invoke cb x =
            Done (setOpacity other 1%float
                    (setDisplay other "inline" (setDisplay tr "none" x)))).
  { intros x. unfold cb. destruct forward; simpl; unfold swapRows;
      now rewrite Htr, Hother. }
  destruct (fadeOut_runs tr cb opts fuel n w Hidle Hn)
    as (wend & Hr & Hnow & Htm & Htrc & Hu & Hs & Hop & Hoth).
  unfold w'. rewrite Hh. cbn [settle]. rewrite run_add, Hr, Hcb.
  cbn [settle]. rewrite run_idle by exact Htm.
  destruct Hs as (_ & Hp & Hc & Htg & Htx & Hdb & Hst).
  unfold setOpacity, setDisplay, setDom.
  cbn [now trace dom timers uncaught].
  assert (Hto : Nat.eqb tr other = false) by now apply Nat.eqb_neq.
  assert (Hot : Nat.eqb other tr = false)
    by (apply Nat.eqb_neq; congruence).
  split; [assumption|]. split; [assumption|]. split; [exact Hnow|].
  split. { rewrite style_setOpacity, !style_setStyle, Hto, Nat.eqb_refl.
           reflexivity. }
  split. { rewrite opacity_setOpacity_other by assumption. exact Hop. }
  split. { rewrite style_setOpacity, style_setStyle, Nat.eqb_refl.
           reflexivity. }
  split. { apply opacity_setOpacity_same. }
  split.
  { intros m Hm1 Hm2. split.
    - rewrite style_setOpacity. simpl.
      rewrite !upd_other by assumption. now rewrite Hst.
    - rewrite opacity_setOpacity_other by assumption. simpl.
      now apply Hoth. }
  split.
  { intros m prop Hprop. apply String.eqb_neq in Hprop.
    rewrite style_setOpacity, !style_setStyle, Hprop, Hst.
    destruct (Nat.eqb m other) eqn:E1.
    - apply Nat.eqb_eq in E1. subst m. rewrite Hot. reflexivity.
    - destruct (Nat.eqb m tr) eqn:E2; [|reflexivity].
      apply Nat.eqb_eq in E2. now subst m. }
  split; [assumption|]. split; [assumption|]. split; [assumption|].
  split; assumption.
Qed.

(** X11.  A click on an arrow of row [index], on an idle page, when the
    event target yields [index], both the row and its neighbour in the
    direction of the arrow exist, and the row's fade-out takes [n] ticks:
    the loop comes to rest after [n] turns, without a throw, with the row
    hidden ([display] none, opacity 0) and the neighbour shown ([display]
    inline, opacity 1).  No other element's style or opacity changes, no
    style property other than [display] changes, and the tree is as it
    was.  The first tick waits the slideshow's [fadeTimeStep], the others
    80 ms. *)
Theorem arrow_click_swaps_rows
        (env : Env) (forward : bool) (target : Node) (index : Z)
        (tr other : Node) (fuel n k : nat) (w : World) :
  timers w = [] ->
  trElIndexForThisButton (dom w) target = Some (Some index) ->
  item (trEls env) index = Some tr ->
  item (trEls env) (if forward then index + 1 else index - 1) = Some other ->
  tr <> other ->
  ticksOut fuel (startOpacity (dom w) tr) = Some n ->
  let handler := if forward then rightButton_onclick else leftButton_onclick in
  let opts := Some (mkFadeOptions (Some (step env))) in
  let w' := run (n + k) (settle (handler env target w)) in
  timers w' = [] /\ uncaught w' = uncaught w /\
  now w' = now w + Z.max 0 (stepOf opts) + 80 * (Z.of_nat n - 1) /\
  Dom.style (dom w') tr "display" = "none"%string /\
  Dom.opacity (dom w') tr = Some 0%float /\
  Dom.style (dom w') other "display" = "inline"%string /\
  Dom.opacity (dom w') other = Some 1%float /\
  (forall m, m <> tr -> m <> other ->
     Dom.style (dom w') m = Dom.style (dom w) m /\
     Dom.opacity (dom w') m = Dom.opacity (dom w) m) /\
  (forall m prop, prop <> "display"%string ->
     Dom.style (dom w') m prop = Dom.style (dom w) m prop) /\
  Dom.childNodes (dom w') = Dom.childNodes (dom w) /\
  Dom.parentNode (dom w') = Dom.parentNode (dom w).
Proof.
  intros Hidle Hidx Htr Hother Hne Hn handler opts w'.
  destruct (arrow_click_runs env forward target index tr other fuel n k w
              Hidle Hidx Htr Hother Hne Hn)
    as (H1 & H2 & H3 & H4 & H5 & H6 & H7 & H8 & H9 & H10 & H11 & _).
  split; [exact H1|]. split; [exact H2|]. split; [exact H3|].
  split; [exact H4|]. split; [exact H5|]. split; [exact H6|].
  split; [exact H7|]. split; [exact H8|]. split; [exact H9|].
  split; [exact H10 | exact H11].
Qed.

(** X12.  The same click when the row has no neighbour in the direction of
    the arrow (the handler of a disabled button, were it to run): the row
    still fades out and is hidden, then the completion callback throws on
    [trEls[index -+ 1].style]; no other element's style or opacity has
    changed, so no row has been shown in its place. *)
Theorem arrow_click_past_the_end
        (env : Env) (forward : bool) (target : Node) (index : Z)
        (tr : Node) (fuel n k : nat) (w : World) :
  timers w = [] ->
  trElIndexForThisButton (dom w) target = Some (Some index) ->
  item (trEls env) index = Some tr ->
  item (trEls env) (if forward then index + 1 else index - 1) = None ->
  ticksOut fuel (startOpacity (dom w) tr) = Some n ->
  let handler := if forward then rightButton_onclick else leftButton_onclick in
  let w' := run (n + k) (settle (handler env target w)) in
  timers w' = [] /\ uncaught w' = S (uncaught w) /\
  Dom.style (dom w') tr "display" = "none"%string /\
  Dom.opacity (dom w') tr = Some 0%float /\
  (forall m, m <> tr ->
     Dom.style (dom w') m = Dom.style (dom w) m /\
     Dom.opacity (dom w') m = Dom.opacity (dom w) m).
Proof.
  intros Hidle Hidx Htr Hother Hn handler w'.
  set (opts := Some (mkFadeOptions (Some (step env)))).
  set (cb := (if forward then RightArrowDone else LeftArrowDone)
               (trEls env) index).
  assert (Hh : handler env target w = Done (fadeOut tr cb opts w)).
  { unfold handler, cb, rightButton_onclick, leftButton_onclick.
    destruct forward; unfold arrow_onclick; now rewrite Hidx, Htr. }
  assert (Hcb : forall x, invoke cb x = TypeError (setDisplay tr "none" x)).
  { intros x. unfold cb. destruct forward; simpl; unfold swapRows;
      now rewrite Htr, Hother. }
  destruct (fadeOut_runs tr cb opts fuel n w Hidle Hn)
    as (wend & Hr & Hnow & Htm & Htrc & Hu & Hs & Hop & Hoth).
  unfold w'. rewrite Hh. cbn [settle]. rewrite run_add, Hr, Hcb.
  cbn [settle]. unfold setDisplay, setDom.
  cbn [now trace dom timers uncaught].
  rewrite run_idle by exact Htm.
  destruct Hs as (_ & Hp & Hc & _ & _ & _ & Hst).
  cbn [now trace dom timers uncaught].
  split; [assumption|]. split; [now rewrite Hu|].
  split. { rewrite style_setStyle, Nat.eqb_refl. reflexivity. }
  split. { exact Hop. }
  intros m Hm. split.
  - simpl. rewrite upd_other by assumption. now rewrite Hst.
  - simpl. now apply Hoth.
Qed.

Lemma arrow_click_swaps_rows_witness :
  let env := fst Examples.slides in
  let w := Examples.idle (snd Examples.slides) in
  let opts := Some (mkFadeOptions (Some (step env))) in
  let w' := run (11 + 0) (settle (rightButton_onclick env 20%nat w)) in
  timers w' = [] /\ uncaught w' = uncaught w /\
  now w' = now w + Z.max 0 (stepOf opts) + 80 * (Z.of_nat 11 - 1) /\
  Dom.style (dom w') 8%nat "display" = "none"%string /\
  Dom.opacity (dom w') 8%nat = Some 0%float /\
  Dom.style (dom w') 24%nat "display" = "inline"%string /\
  Dom.opacity (dom w') 24%nat = Some 1%float /\
  (forall m, m <> 8%nat -> m <> 24%nat ->
     Dom.style (dom w') m = Dom.style (dom w) m /\
     Dom.opacity (dom w') m = Dom.opacity (dom w) m) /\
  (forall m prop, prop <> "display"%string ->
     Dom.style (dom w') m prop = Dom.style (dom w) m prop) /\
  Dom.childNodes (dom w') = Dom.childNodes (dom w) /\
  Dom.parentNode (dom w') = Dom.parentNode (dom w).
Proof.
  apply (arrow_click_swaps_rows (fst Examples.slides) true 20%nat 0
           8%nat 24%nat 20%nat 11%nat 0%nat
           (Examples.idle (snd Examples.slides))).
  - reflexivity.
  - vm_compute. reflexivity.
  - vm_compute. reflexivity.
  - vm_compute. reflexivity.
  - discriminate.
  - vm_compute. reflexivity.
Defined.

Lemma arrow_click_past_the_end_witness :
  let env := fst Examples.slides in
  let w := Examples.idle (snd Examples.slides) in
  let w' := run (11 + 0) (settle (leftButton_onclick env 9%nat w)) in
  timers w' = [] /\ uncaught w' = S (uncaught w) /\
  Dom.style (dom w') 8%nat "display" = "none"%string /\
  Dom.opacity (dom w') 8%nat = Some 0%float /\
  (forall m, m <> 8%nat ->
     Dom.style (dom w') m = Dom.style (dom w) m /\
     Dom.opacity (dom w') m = Dom.opacity (dom w) m).
Proof.
  apply (arrow_click_past_the_end (fst Examples.slides) false 9%nat 0
           8%nat 20%nat 11%nat 0%nat
           (Examples.idle (snd Examples.slides))).
  - reflexivity.
  - vm_compute. reflexivity.
  - vm_compute. reflexivity.
  - vm_compute. reflexivity.
  - vm_compute. reflexivity.
Defined.


(** X16.  One row visible at a time, between clicks.  On an idle page
    that shows row [c] only, fully opaque, a click on an arrow of that row
    (the event target yields [c]) in a direction where a row exists ends,
    11 turns later, with the page idle again and showing the neighbouring
    row only, fully opaque; nothing was thrown, and every button is
    disabled and marked as before, so the same holds for the next
    click.  The rows have to be pairwise distinct. *)
Theorem arrow_click_moves_one_row
        (env : Env) (forward : bool) (target : Node) (c k : nat) (w : World) :
  NoDup (trEls env) ->
  atRow env w c ->
  trElIndexForThisButton (dom w) target = Some (Some (Z.of_nat c)) ->
  (if forward then S c < List.length (trEls env)
   else 0 < c < List.length (trEls env))%nat ->
  let handler := if forward then rightButton_onclick else leftButton_onclick in
  let w' := run (11 + k) (settle (handler env target w)) in
  atRow env w' (if forward then S c else Nat.pred c) /\
  uncaught w' = uncaught w /\
  Dom.disabled (dom w') = Dom.disabled (dom w) /\
  forall t,
    trElIndexForThisButton (dom w') t = trElIndexForThisButton (dom w) t.
Proof.
  intros Hnd [Hidle Hrows] Hidx Hdir handler w'.
  set (c' := if forward then S c else Nat.pred c).
  assert (Hc : (c < List.length (trEls env))%nat) by (destruct forward; lia).
  assert (Hc' : (c' < List.length (trEls env))%nat /\ c <> c')
    by (unfold c'; destruct forward; simpl; lia).
  destruct (nth_error (trEls env) c) as [tr|] eqn:Etr;
    [|apply nth_error_None in Etr; lia].
  destruct (nth_error (trEls env) c') as [other|] eqn:Eo;
    [|apply nth_error_None in Eo; lia].
  assert (Hinj : forall a b x,
            nth_error (trEls env) a = Some x ->
            nth_error (trEls env) b = Some x -> a = b).
  { intros a b x Ha Hb.
    apply (proj1 (NoDup_nth_error (trEls env)) Hnd).
    - apply nth_error_Some. rewrite Ha. discriminate.
    - now rewrite Ha, Hb. }
  assert (Hne : tr <> other).
  { intros ->. apply (proj2 Hc'). now apply (Hinj c c' other). }
  assert (Hi1 : item (trEls env) (Z.of_nat c) = Some tr).
  { unfold item. destruct (Z.ltb_spec (Z.of_nat c) 0); [lia|].
    now rewrite Nat2Z.id. }
  assert (Hi2 : item (trEls env)
                  (if forward then Z.of_nat c + 1 else Z.of_nat c - 1) =
                Some other).
  { unfold item, c' in *. destruct forward.
    - destruct (Z.ltb_spec (Z.of_nat c + 1) 0); [lia|].
      replace (Z.to_nat (Z.of_nat c + 1)) with (S c) by lia. exact Eo.
    - destruct (Z.ltb_spec (Z.of_nat c - 1) 0); [lia|].
      replace (Z.to_nat (Z.of_nat c - 1)) with (Nat.pred c) by lia. exact Eo. }
  assert (Hn : ticksOut 11 (startOpacity (dom w) tr) = Some 11%nat).
  { rewrite (proj2 (Hrows c tr Etr) eq_refl). vm_compute. reflexivity. }
  destruct (arrow_click_runs env forward target (Z.of_nat c) tr other
              11 11 k w Hidle Hidx Hi1 Hi2 Hne Hn)
    as (T & U & _ & S1 & _ & S2 & O2 & Oth & _ & Ck & Cp & Tg & Tx & Db).
  fold handler in T, U, S1, S2, O2, Oth, Ck, Cp, Tg, Tx, Db.
  fold w' in T, U, S1, S2, O2, Oth, Ck, Cp, Tg, Tx, Db.
  split.
  { split; [exact T|]. intros j r Hj. destruct (Hrows j r Hj) as [Sh Op].
    destruct (Nat.eq_dec j c) as [-> | Hjc].
    { rewrite Etr in Hj. injection Hj as <-. unfold shown. rewrite S1.
      split; [|intros H; now destruct Hc'].
      symmetry. apply Nat.eqb_neq. apply (proj2 Hc'). }
    destruct (Nat.eq_dec j c') as [-> | Hjc'].
    { rewrite Eo in Hj. injection Hj as <-. unfold shown. rewrite S2.
      rewrite Nat.eqb_refl. split; [reflexivity|].
      intros _. unfold startOpacity. now rewrite O2. }
    assert (H1 : r <> tr)
      by (intros ->; apply Hjc; now apply (Hinj j c tr)).
    assert (H2 : r <> other)
      by (intros ->; apply Hjc'; now apply (Hinj j c' other)).
    destruct (Oth r H1 H2) as [St _]. unfold shown. rewrite St.
    fold (shown (dom w) r). rewrite Sh.
    apply Nat.eqb_neq in Hjc. apply Nat.eqb_neq in Hjc'.
    rewrite Hjc, Hjc'. split; [reflexivity|].
    intros ->. now rewrite Nat.eqb_refl in Hjc'. }
  split; [exact U|]. split; [exact Db|].
  intros t. unfold trElIndexForThisButton, nextSibling.
  now rewrite Tg, Ck, Cp, Tx.
Qed.

Lemma arrow_click_moves_one_row_witness :
  let env := fst Examples.slides in
  let w := Examples.idle (snd Examples.slides) in
  let w' := run (11 + 0) (settle (rightButton_onclick env 20%nat w)) in
  atRow env w' 1 /\
  uncaught w' = uncaught w /\
  Dom.disabled (dom w') = Dom.disabled (dom w) /\
  forall t,
    trElIndexForThisButton (dom w') t = trElIndexForThisButton (dom w) t.
Proof.
  apply (arrow_click_moves_one_row (fst Examples.slides) true 20%nat
           0%nat 0%nat (Examples.idle (snd Examples.slides))).
  - vm_compute. repeat constructor; simpl; intuition lia.
  - split; [reflexivity|]. intros j tr Hj.
    destruct j as [|[|[|j]]]; vm_compute in Hj.
    + injection Hj as <-. split; [|intros _]; vm_compute; reflexivity.
    + injection Hj as <-. split; [vm_compute; reflexivity | discriminate].
    + injection Hj as <-. split; [vm_compute; reflexivity | discriminate].
    + destruct j; discriminate.
  - vm_compute. reflexivity.
  - vm_compute. lia.
Defined.

End NavigationFacts.


(** ** The slideshow's construction *)

Section ConstructionFacts.
Import Heap Slideshow.

Lemma In_remove c l x : In x (Dom.remove c l) <-> x <> c /\ In x l.
Proof.
  induction l as [|a l IH]; simpl; [tauto|].
  destruct (Nat.eqb_spec a c) as [-> | Hne]; simpl; rewrite IH.
  - split; [tauto|]. intros [H1 [H2 | H2]]; [congruence | tauto].
  - split; [|tauto]. intros [-> | H]; tauto.
Qed.

Lemma remove_notin c l : ~ In c l -> Dom.remove c l = l.
Proof.
  induction l as [|a l IH]; intros H; simpl; [reflexivity|].
  destruct (Nat.eqb_spec a c) as [-> | Hne].
  - exfalso. apply H. now left.
  - f_equal. apply IH. intros Hin. apply H. now right.
Qed.

Lemma remove_app c l1 l2 :
  Dom.remove c (l1 ++ l2) = Dom.remove c l1 ++ Dom.remove c l2.
Proof.
  induction l1 as [|a l1 IH]; simpl; [reflexivity|].
  destruct (Nat.eqb a c); simpl; now rewrite IH.
Qed.

Lemma remove_filter c f l :
  Dom.remove c (filter f l) = filter f (Dom.remove c l).
Proof.
  induction l as [|a l IH]; simpl; [reflexivity|].
  destruct (f a) eqn:Ef; destruct (Nat.eqb a c) eqn:Ec; simpl;
    rewrite ?Ef, ?Ec, IH; reflexivity.
Qed.

Lemma remove_flat_map c (f : Node -> list Node) l :
  Dom.remove c (flat_map f l) = flat_map (fun x => Dom.remove c (f x)) l.
Proof.
  induction l as [|a l IH]; simpl; [reflexivity|].
  now rewrite remove_app, IH.
Qed.

Lemma flat_map_ext_In {A B} (f g : A -> list B) l :
  (forall x, In x l -> f x = g x) -> flat_map f l = flat_map g l.
Proof.
  induction l as [|a l IH]; intros H; simpl; [reflexivity|].
  rewrite (H a) by now left. f_equal. apply IH. intros x Hx. apply H.
  now right.
Qed.

(** A node without a parent is in no child list. *)
Lemma detached_notin d c q :
  consistent d -> Dom.parentNode d c = None -> ~ In c (Dom.childNodes d q).
Proof. intros Hc Hp Hin. rewrite (Hc q c Hin) in Hp. discriminate. Qed.

Lemma fresh_notin d n q :
  wellFormed d -> (Dom.nextId d <= n)%nat -> ~ In n (Dom.childNodes d q).
Proof.
  intros [Hc Hu] Hn. apply detached_notin; [assumption|]. now apply Hu.
Qed.

(** In a consistent document, [appendChild p c] removes [c] from every
    child list and puts it at the end of [p]'s. *)
Lemma appendChild_childNodes d p c x :
  consistent d ->
  Dom.childNodes (Dom.appendChild p c d) x =
  if Nat.eqb x p then Dom.remove c (Dom.childNodes d p) ++ [c]
  else Dom.remove c (Dom.childNodes d x).
Proof.
  intros Hc. unfold Dom.appendChild. cbn [Dom.childNodes].
  assert (Hrm : forall y, Dom.parentNode d c <> Some y ->
            Dom.remove c (Dom.childNodes d y) = Dom.childNodes d y).
  { intros y Hy. apply remove_notin. intros Hin. apply Hy. now apply Hc. }
  destruct (Dom.parentNode d c) as [q|] eqn:Hp.
  - unfold Dom.upd at 1. destruct (Nat.eqb_spec x p) as [-> | Hxp].
    + f_equal. unfold Dom.upd. destruct (Nat.eqb_spec p q) as [-> | Hpq];
        [reflexivity|].
      symmetry. apply Hrm. congruence.
    + unfold Dom.upd. destruct (Nat.eqb_spec x q) as [-> | Hxq];
        [reflexivity|].
      symmetry. apply Hrm. congruence.
  - unfold Dom.upd. destruct (Nat.eqb_spec x p) as [-> | Hxp].
    + f_equal. symmetry. apply Hrm. discriminate.
    + symmetry. apply Hrm. discriminate.
Qed.

Lemma appendChild_parentNode d p c x :
  Dom.parentNode (Dom.appendChild p c d) x =
  if Nat.eqb x c then Some p else Dom.parentNode d x.
Proof. reflexivity. Qed.

Lemma appendChild_wellFormed d p c :
  wellFormed d -> (p < Dom.nextId d)%nat -> (c < Dom.nextId d)%nat ->
  wellFormed (Dom.appendChild p c d).
Proof.
  intros [Hc Hu] Hp Hcn. split.
  - intros q y Hin. rewrite appendChild_childNodes in Hin by assumption.
    rewrite appendChild_parentNode.
    destruct (Nat.eqb_spec q p) as [-> | Hqp].
    + apply in_app_or in Hin. destruct Hin as [Hin | [<- | []]].
      * apply In_remove in Hin. destruct Hin as [Hy Hin].
        apply Nat.eqb_neq in Hy. rewrite Hy. now apply Hc.
      * now rewrite Nat.eqb_refl.
    + apply In_remove in Hin. destruct Hin as [Hy Hin].
      apply Nat.eqb_neq in Hy. rewrite Hy. now apply Hc.
  - intros n Hn. change (Dom.nextId (Dom.appendChild p c d)) with (Dom.nextId d) in Hn.
    destruct (Hu n Hn) as [H1 H2]. split.
    + rewrite appendChild_childNodes by assumption.
      assert (E : Nat.eqb n p = false) by (apply Nat.eqb_neq; lia).
      now rewrite E, H1.
    + rewrite appendChild_parentNode.
      assert (E : Nat.eqb n c = false) by (apply Nat.eqb_neq; lia).
      now rewrite E.
Qed.

Lemma wellFormed_ext d d' :
  Dom.childNodes d' = Dom.childNodes d ->
  Dom.parentNode d' = Dom.parentNode d ->
  (Dom.nextId d <= Dom.nextId d')%nat ->
  wellFormed d -> wellFormed d'.
Proof.
  intros Ec Ep En [Hc Hu]. split.
  - intros q c. rewrite Ec, Ep. apply Hc.
  - intros n Hn. rewrite Ec, Ep. apply Hu. lia.
Qed.

Lemma createElement_wellFormed tag d :
  wellFormed d -> wellFormed (snd (Dom.createElement tag d)).
Proof. apply wellFormed_ext; simpl; auto. Qed.

(** What wrapping [c] in a new cell of [trEl] does to the tree. *)
Lemma appendDiv_tree trEl d c :
  wellFormed d ->
  (trEl < Dom.nextId d)%nat -> (c < Dom.nextId d)%nat ->
  let d' := appendDiv trEl d c in
  wellFormed d' /\ Dom.nextId d' = S (Dom.nextId d) /\
  (forall x, Dom.parentNode d' x =
     if Nat.eqb x (Dom.nextId d) then Some trEl
     else if Nat.eqb x c then Some (Dom.nextId d)
     else Dom.parentNode d x) /\
  (forall x, Dom.childNodes d' x =
     if Nat.eqb x trEl
     then Dom.remove c (Dom.childNodes d trEl) ++ [Dom.nextId d]
     else if Nat.eqb x (Dom.nextId d) then [c]
     else Dom.remove c (Dom.childNodes d x)).
Proof.
  intros Hwf Htr Hc d'. unfold d', appendDiv. cbn [Dom.createElement].
  set (td := Dom.nextId d).
  set (d1 := Dom.mk (S td) _ _ _ _ _ _ _).
  assert (Hwf1 : wellFormed d1)
    by (apply (createElement_wellFormed Dom.TD d Hwf)).
  assert (Hwf2 : wellFormed (Dom.appendChild td c d1))
    by (apply appendChild_wellFormed; [assumption | simpl; lia | simpl; lia]).
  assert (Hfresh : forall q, ~ In td (Dom.childNodes d q))
    by (intros q; apply fresh_notin; [assumption | unfold td; lia]).
  split; [apply appendChild_wellFormed; [assumption | simpl; lia | simpl; lia]|].
  split; [reflexivity|].
  split.
  { intros x. rewrite !appendChild_parentNode. reflexivity. }
  intros x. rewrite appendChild_childNodes by apply Hwf2.
  rewrite !appendChild_childNodes by apply Hwf1.
  change (Dom.childNodes d1) with (Dom.childNodes d).
  assert (Etr : Nat.eqb trEl td = false) by (apply Nat.eqb_neq; unfold td; lia).
  assert (Etd : Dom.childNodes d td = [])
    by (apply (proj2 Hwf); unfold td; lia).
  assert (Ectd : Nat.eqb c td = false) by (apply Nat.eqb_neq; unfold td; lia).
  rewrite Etr.
  destruct (Nat.eqb_spec x trEl) as [-> | Hx].
  - f_equal. apply remove_notin. intros Hin. apply In_remove in Hin.
    destruct Hin as [_ Hin]. now apply (Hfresh trEl).
  - destruct (Nat.eqb_spec x td) as [-> | Hxtd].
    + rewrite Etd. simpl. now rewrite Ectd.
    + apply remove_notin. intros Hin. apply In_remove in Hin.
      destruct Hin as [_ Hin]. now apply (Hfresh x).
Qed.

Lemma allocated_child d q x :
  wellFormed d -> In x (Dom.childNodes d q) -> (x < Dom.nextId d)%nat.
Proof.
  intros [Hc Hu] Hin. destruct (Nat.lt_ge_cases x (Dom.nextId d)) as [H | H];
    [assumption|].
  destruct (Hu x H) as [_ Hp]. rewrite (Hc q x Hin) in Hp. discriminate.
Qed.

Lemma appendDiv_content trEl d c divs r :
  wellFormed d ->
  (trEl < Dom.nextId d)%nat -> (c < Dom.nextId d)%nat ->
  Dom.parentNode d trEl = None ->
  isRow d divs r -> ~ In c (Dom.childNodes d r) ->
  pageContent (appendDiv trEl d c) divs r =
  Dom.remove c (pageContent d divs r) ++
  (if Nat.eqb r trEl then filter (isDiv divs) [c] else []).
Proof.
  intros Hwf Htr Hc Hpar (Hr & _ & _ & _) Hnc.
  destruct (appendDiv_tree trEl d c Hwf Htr Hc) as (_ & _ & _ & Hcn).
  unfold pageContent.
  assert (Hin : forall x, In x (Dom.childNodes d r) ->
            Dom.childNodes (appendDiv trEl d c) x =
            Dom.remove c (Dom.childNodes d x)).
  { intros x Hx. rewrite Hcn.
    assert (E1 : Nat.eqb x trEl = false).
    { apply Nat.eqb_neq. intros ->.
      now apply (detached_notin d trEl r (proj1 Hwf) Hpar). }
    assert (E2 : Nat.eqb x (Dom.nextId d) = false).
    { apply Nat.eqb_neq. intros ->.
      now apply (fresh_notin d (Dom.nextId d) r Hwf (le_n _)). }
    now rewrite E1, E2. }
  assert (Hmain : filter (isDiv divs)
            (flat_map (Dom.childNodes (appendDiv trEl d c))
                      (Dom.childNodes d r)) =
          Dom.remove c (filter (isDiv divs)
            (flat_map (Dom.childNodes d) (Dom.childNodes d r)))).
  { rewrite (flat_map_ext_In _ _ _ Hin), remove_filter, remove_flat_map.
    reflexivity. }
  rewrite (Hcn r).
  assert (Ertd : Nat.eqb r (Dom.nextId d) = false)
    by (apply Nat.eqb_neq; lia).
  destruct (Nat.eqb_spec r trEl) as [-> | Hne].
  - rewrite (remove_notin c _ Hnc), flat_map_app, filter_app, Hmain.
    f_equal. cbn [flat_map]. rewrite app_nil_r, Hcn.
    assert (E : Nat.eqb (Dom.nextId d) trEl = false)
      by (apply Nat.eqb_neq; lia).
    now rewrite E, Nat.eqb_refl.
  - rewrite Ertd, (remove_notin c _ Hnc), Hmain. now rewrite app_nil_r.
Qed.

Lemma appendDiv_isRow trEl d c divs r :
  wellFormed d ->
  (trEl < Dom.nextId d)%nat -> (c < Dom.nextId d)%nat ->
  (forall x, In x divs -> (x < Dom.nextId d)%nat) ->
  isRow d divs r -> r <> c ->
  isRow (appendDiv trEl d c) divs r.
Proof.
  intros Hwf Htr Hc Hdivs (Hr & Hp & Hnd & Hch) Hrc.
  destruct (appendDiv_tree trEl d c Hwf Htr Hc) as (_ & Hn & Hpar & Hcn).
  split; [lia|]. split; [|split; [assumption|]].
  - rewrite Hpar.
    assert (E1 : Nat.eqb r (Dom.nextId d) = false) by (apply Nat.eqb_neq; lia).
    assert (E2 : Nat.eqb r c = false) by now apply Nat.eqb_neq.
    now rewrite E1, E2.
  - intros x. rewrite Hcn.
    assert (E1 : Nat.eqb r (Dom.nextId d) = false) by (apply Nat.eqb_neq; lia).
    rewrite E1. destruct (Nat.eqb_spec r trEl) as [Ert | Ert].
    + subst r. intros Hin. apply in_app_or in Hin.
      destruct Hin as [Hin | [<- | []]].
      * apply In_remove in Hin. now apply Hch.
      * intros Hd. apply Hdivs in Hd. lia.
    + intros Hin. apply In_remove in Hin. now apply Hch.
Qed.

Lemma appendDiv_other_children trEl d c r :
  wellFormed d ->
  (trEl < Dom.nextId d)%nat -> (c < Dom.nextId d)%nat ->
  (r < Dom.nextId d)%nat -> r <> trEl -> ~ In c (Dom.childNodes d r) ->
  Dom.childNodes (appendDiv trEl d c) r = Dom.childNodes d r.
Proof.
  intros Hwf Htr Hc Hr Hne Hnc.
  destruct (appendDiv_tree trEl d c Hwf Htr Hc) as (_ & _ & _ & Hcn).
  rewrite Hcn.
  assert (E1 : Nat.eqb r trEl = false) by now apply Nat.eqb_neq.
  assert (E2 : Nat.eqb r (Dom.nextId d) = false) by (apply Nat.eqb_neq; lia).
  rewrite E1, E2. now apply remove_notin.
Qed.

Lemma removeAll_filter l : forall acc,
  removeAll l acc = filter (fun x => negb (isDiv l x)) acc.
Proof.
  unfold removeAll, isDiv.
  induction l as [|c l IH]; intros acc; simpl.
  - induction acc as [|a acc IHa]; simpl; [reflexivity | now f_equal].
  - rewrite IH. clear IH. induction acc as [|a acc IHa]; simpl;
      [reflexivity|].
    destruct (Nat.eqb a c); simpl; [assumption|].
    destruct (existsb (Nat.eqb a) l); simpl; [assumption | now f_equal].
Qed.

Lemma isDiv_In l x : isDiv l x = true <-> In x l.
Proof.
  unfold isDiv. rewrite existsb_exists. split.
  - intros (y & Hy & E). apply Nat.eqb_eq in E. now subst.
  - intros H. exists x. split; [assumption | apply Nat.eqb_refl].
Qed.

Lemma filter_all {A} (f : A -> bool) l :
  (forall x, In x l -> f x = true) -> filter f l = l.
Proof.
  induction l as [|a l IH]; intros H; simpl; [reflexivity|].
  rewrite (H a) by now left. f_equal. apply IH. intros x Hx. apply H.
  now right.
Qed.

Lemma filter_none {A} (f : A -> bool) l :
  (forall x, In x l -> f x = false) -> filter f l = [].
Proof.
  induction l as [|a l IH]; intros H; simpl; [reflexivity|].
  rewrite (H a) by now left. apply IH. intros x Hx. apply H. now right.
Qed.

(** Without repetitions, removing a suffix leaves the prefix. *)
Lemma removeAll_suffix l1 l2 :
  NoDup (l1 ++ l2) -> removeAll l2 (l1 ++ l2) = l1.
Proof.
  intros Hnd. rewrite removeAll_filter, filter_app.
  rewrite (filter_none _ l2), app_nil_r.
  - apply filter_all. intros x Hx.
    destruct (isDiv l2 x) eqn:E; [|reflexivity].
    apply isDiv_In in E. exfalso. revert Hx E. clear -Hnd.
    induction l1 as [|a l1 IH]; intros Hx E; [destruct Hx|].
    inversion Hnd as [|? ? Ha Hnd']; subst.
    destruct Hx as [-> | Hx]; [|now apply IH].
    apply Ha. apply in_or_app. now right.
  - intros x Hx. apply isDiv_In in Hx. now rewrite Hx.
Qed.

Lemma removeAll_disjoint l acc :
  (forall x, In x acc -> ~ In x l) -> removeAll l acc = acc.
Proof.
  intros H. rewrite removeAll_filter. apply filter_all. intros x Hx.
  destruct (isDiv l x) eqn:E; [|reflexivity].
  apply isDiv_In in E. now apply H in Hx.
Qed.

Lemma removeAll_app l a b : removeAll l (a ++ b) = removeAll l a ++ removeAll l b.
Proof. rewrite !removeAll_filter. apply filter_app. Qed.

Lemma pageContent_divs d divs r x :
  In x (pageContent d divs r) -> In x divs.
Proof.
  unfold pageContent. intros H. apply filter_In in H. now apply isDiv_In.
Qed.

(** The cells of [trEl] filled with the content elements [l], one after
    the other: each element leaves the row it was in. *)
Lemma fold_appendDiv trEl divs : forall l d,
  wellFormed d ->
  (trEl < Dom.nextId d)%nat -> Dom.parentNode d trEl = None ->
  ~ In trEl divs ->
  (forall x, In x divs -> (x < Dom.nextId d)%nat) ->
  (forall c, In c l -> In c divs) -> NoDup l ->
  let d' := fold_left (appendDiv trEl) l d in
  wellFormed d' /\ (Dom.nextId d <= Dom.nextId d')%nat /\
  Dom.parentNode d' trEl = None /\
  (forall r, isRow d divs r ->
     isRow d' divs r /\
     pageContent d' divs r =
       removeAll l (pageContent d divs r) ++
       (if Nat.eqb r trEl then l else []) /\
     (r <> trEl -> Dom.childNodes d' r = Dom.childNodes d r)) /\
  Dom.style d' = Dom.style d /\ Dom.opacity d' = Dom.opacity d /\
  Dom.disabled d' = Dom.disabled d /\ Dom.textContent d' = Dom.textContent d.
Proof.
  induction l as [|c l IH]; intros d Hwf Htr Hpar Hnd Hdivs Hl Hno d'.
  - unfold d'. simpl. split; [assumption|]. split; [lia|].
    split; [assumption|]. split; [|now repeat split].
    intros r Hr. split; [assumption|]. split; [|reflexivity].
    unfold removeAll. simpl.
    destruct (Nat.eqb r trEl); now rewrite app_nil_r.
  - inversion Hno as [|? ? Hcl Hno']; subst.
    assert (Hc : In c divs) by (apply Hl; now left).
    assert (Hcn : (c < Dom.nextId d)%nat) by now apply Hdivs.
    destruct (appendDiv_tree trEl d c Hwf Htr Hcn) as (Hwf1 & Hn1 & Hp1 & _).
    assert (Hpar1 : Dom.parentNode (appendDiv trEl d c) trEl = None).
    { rewrite Hp1.
      assert (E1 : Nat.eqb trEl (Dom.nextId d) = false)
        by (apply Nat.eqb_neq; lia).
      assert (E2 : Nat.eqb trEl c = false)
        by (apply Nat.eqb_neq; intros ->; contradiction).
      now rewrite E1, E2. }
    destruct (IH (appendDiv trEl d c) Hwf1) as (Hwf' & Hn' & Hp' & Hrows & Hfr);
      try assumption.
    { lia. }
    { intros x Hx. apply Hdivs in Hx. lia. }
    { intros x Hx. apply Hl. now right. }
    unfold d'. cbn [fold_left].
    split; [assumption|]. split; [lia|]. split; [assumption|].
    split; [|exact Hfr].
    intros r Hr.
    assert (Hrc : r <> c).
    { intros ->. now apply (proj1 (proj2 (proj2 Hr))). }
    destruct (Hrows r (appendDiv_isRow trEl d c divs r Hwf Htr Hcn Hdivs Hr Hrc))
      as (Hrow' & Hcont' & Hkids').
    assert (Hcr : ~ In c (Dom.childNodes d r)).
    { intros Hin. now apply (proj2 (proj2 (proj2 Hr)) c). }
    split; [assumption|].
    split.
    2:{ intros Hne. rewrite (Hkids' Hne).
        apply appendDiv_other_children; try assumption. apply Hr. }
    rewrite Hcont'.
    rewrite (appendDiv_content trEl d c divs r Hwf Htr Hcn Hpar Hr Hcr).
    rewrite removeAll_app, <- app_assoc. f_equal.
    destruct (Nat.eqb r trEl).
    + assert (Ed : isDiv divs c = true) by now apply isDiv_In.
      cbn [filter]. rewrite Ed.
      rewrite removeAll_disjoint; [reflexivity|].
      intros x [<- | []]. assumption.
    + now rewrite removeAll_disjoint by (intros x []).
Qed.

(** Appending a detached node to a node other than [x] and its parent
    leaves [x] as it was. *)
Lemma appendChild_frame d p c x :
  wellFormed d -> Dom.parentNode d c = None -> x <> p -> x <> c ->
  Dom.childNodes (Dom.appendChild p c d) x = Dom.childNodes d x /\
  Dom.parentNode (Dom.appendChild p c d) x = Dom.parentNode d x.
Proof.
  intros Hwf Hpc Hxp Hxc. split.
  - rewrite appendChild_childNodes by apply Hwf.
    apply Nat.eqb_neq in Hxp. rewrite Hxp. apply remove_notin.
    now apply detached_notin; [apply Hwf|].
  - rewrite appendChild_parentNode. apply Nat.eqb_neq in Hxc. now rewrite Hxc.
Qed.

Lemma makeButton_tree i d :
  wellFormed d ->
  let b := fst (makeButton i d) in
  let d' := snd (makeButton i d) in
  b = Dom.nextId d /\ Dom.nextId d' = (3 + Dom.nextId d)%nat /\
  wellFormed d' /\ agreeBelow (Dom.nextId d) d d' /\
  Dom.parentNode d' b = None /\
  Dom.childNodes d' b = [S b; S (S b)] /\
  Dom.parentNode d' (S b) = Some b /\
  Dom.childNodes d' (S b) = [] /\
  Dom.textContent d' (S (S b)) = Some i /\
  Dom.tagName d' b = Dom.BUTTON /\ Dom.tagName d' (S b) = Dom.SPAN /\
  (forall x, (x < Dom.nextId d)%nat ->
     Dom.style d' x = Dom.style d x /\ Dom.disabled d' x = Dom.disabled d x /\
     Dom.textContent d' x = Dom.textContent d x) /\
  Dom.disabled d' b = Dom.disabled d b /\
  Dom.opacity d' = Dom.opacity d.
Proof.
  intros Hwf b d'.
  pose (n := Dom.nextId d).
  pose (d1 := Dom.setStyle n "fontSize" "large"
                (Dom.setStyle n "height" "100%"
                   (snd (Dom.createElement Dom.BUTTON d)))).
  pose (d3 := snd (Dom.createElement Dom.SPAN d1)).
  pose (d4 := Dom.appendChild n (S n) d3).
  pose (d6 := Dom.setTextContent (S (S n)) i
                (Dom.setStyle (S (S n)) "display" "none"
                   (snd (Dom.createElement Dom.SPAN d4)))).
  assert (E : makeButton i d = (n, Dom.appendChild n (S (S n)) d6))
    by reflexivity.
  unfold b, d'. rewrite E. cbn [fst snd]. clear E b d'.
  assert (Hwf1 : wellFormed d1)
    by (apply (wellFormed_ext d); simpl; auto).
  assert (Hwf3 : wellFormed d3)
    by (apply (wellFormed_ext d1); simpl; auto).
  assert (Hu : forall m, (n <= m)%nat ->
            Dom.childNodes d m = [] /\ Dom.parentNode d m = None)
    by (intros m Hm; now apply (proj2 Hwf)).
  assert (Hwf4 : wellFormed d4)
    by (apply appendChild_wellFormed; [assumption | simpl; lia | simpl; lia]).
  assert (Hwf6 : wellFormed d6)
    by (apply (wellFormed_ext d4); simpl; auto).
  assert (Hn4 : Dom.nextId d4 = S (S n)) by reflexivity.
  assert (Hc4 : forall x, Dom.childNodes d4 x =
            if Nat.eqb x n then [S n] else Dom.childNodes d x).
  { intros x. unfold d4. rewrite appendChild_childNodes by apply Hwf3.
    change (Dom.childNodes d3) with (Dom.childNodes d).
    rewrite (proj1 (Hu n (le_n _))). simpl.
    destruct (Nat.eqb x n); [reflexivity|].
    apply remove_notin. apply fresh_notin; [assumption | unfold n; lia]. }
  assert (Hp4 : forall x, Dom.parentNode d4 x =
            if Nat.eqb x (S n) then Some n else Dom.parentNode d x)
    by (intros x; reflexivity).
  assert (Hc6 : forall x, Dom.childNodes (Dom.appendChild n (S (S n)) d6) x =
            if Nat.eqb x n then [S n; S (S n)] else Dom.childNodes d x).
  { intros x. rewrite appendChild_childNodes by apply Hwf6.
    change (Dom.childNodes d6) with (Dom.childNodes d4). rewrite !Hc4.
    rewrite Nat.eqb_refl.
    destruct (Nat.eqb_spec x n) as [-> | Hx].
    - simpl. destruct (Nat.eqb_spec n (S n)); [lia|].
      simpl. destruct (Nat.eqb_spec n n); [reflexivity | contradiction].
    - apply remove_notin. apply fresh_notin; [assumption | unfold n; lia]. }
  split; [reflexivity|]. split; [reflexivity|].
  split.
  { apply appendChild_wellFormed; [assumption | simpl; lia | simpl; lia]. }
  split.
  { intros x Hx. split.
    - rewrite Hc6. destruct (Nat.eqb_spec x n); [lia | reflexivity].
    - rewrite appendChild_parentNode.
      change (Dom.parentNode d6) with (Dom.parentNode d4). rewrite Hp4.
      destruct (Nat.eqb_spec x (S (S n))); [lia|].
      destruct (Nat.eqb_spec x (S n)); [lia | reflexivity]. }
  split.
  { rewrite appendChild_parentNode.
    change (Dom.parentNode d6) with (Dom.parentNode d4). rewrite Hp4.
    destruct (Nat.eqb_spec n (S (S n))); [lia|].
    destruct (Nat.eqb_spec n (S n)); [lia|]. now apply Hu. }
  split; [rewrite Hc6; now rewrite Nat.eqb_refl|].
  split.
  { rewrite appendChild_parentNode.
    change (Dom.parentNode d6) with (Dom.parentNode d4). rewrite Hp4.
    destruct (Nat.eqb_spec (S n) (S (S n))); [lia|].
    now rewrite Nat.eqb_refl. }
  split.
  { rewrite Hc6. destruct (Nat.eqb_spec (S n) n); [lia|].
    apply Hu. lia. }
  split; [simpl; apply upd_same|].
  split.
  { simpl. rewrite upd_other by lia. rewrite upd_other by lia. apply upd_same. }
  split; [simpl; rewrite upd_other by lia; apply upd_same|].
  split.
  { intros x Hx. simpl. rewrite !upd_other by (unfold n; lia).
    repeat split; reflexivity. }
  split; reflexivity.
Qed.

Lemma agree_row d d' divs r :
  wellFormed d -> agreeBelow (Dom.nextId d) d d' ->
  (Dom.nextId d <= Dom.nextId d')%nat ->
  isRow d divs r ->
  isRow d' divs r /\ pageContent d' divs r = pageContent d divs r.
Proof.
  intros Hwf Hag Hn (Hr & Hp & Hnd & Hch).
  destruct (Hag r Hr) as [Ec Ep]. split.
  - split; [lia|]. split; [congruence|]. split; [assumption|].
    now rewrite Ec.
  - unfold pageContent. rewrite Ec. f_equal. apply flat_map_ext_In.
    intros x Hx. apply (Hag x). now apply (allocated_child d r).
Qed.

Lemma appendDiv_frame trEl d c :
  Dom.style (appendDiv trEl d c) = Dom.style d /\
  Dom.opacity (appendDiv trEl d c) = Dom.opacity d /\
  Dom.disabled (appendDiv trEl d c) = Dom.disabled d /\
  Dom.textContent (appendDiv trEl d c) = Dom.textContent d.
Proof. repeat split. Qed.

(** A button built, possibly disabled, and wrapped in a new cell of
    [trEl]: the rows' content is as before. *)
Lemma addButton trEl divs i (dis : bool) d :
  wellFormed d ->
  (trEl < Dom.nextId d)%nat -> Dom.parentNode d trEl = None ->
  (forall x, In x divs -> (x < Dom.nextId d)%nat) ->
  let b := fst (makeButton i d) in
  let d2 := if dis then Dom.setDisabled b true (snd (makeButton i d))
            else snd (makeButton i d) in
  let d3 := appendDiv trEl d2 b in
  wellFormed d3 /\ (Dom.nextId d <= Dom.nextId d3)%nat /\
  Dom.parentNode d3 trEl = None /\
  (forall r, isRow d divs r ->
     isRow d3 divs r /\ pageContent d3 divs r = pageContent d divs r /\
     (r <> trEl -> Dom.childNodes d3 r = Dom.childNodes d r)) /\
  (forall x, (x < Dom.nextId d)%nat -> Dom.style d3 x = Dom.style d x) /\
  Dom.opacity d3 = Dom.opacity d.
Proof.
  intros Hwf Htr Hpar Hdivs b d2 d3.
  destruct (makeButton_tree i d Hwf)
    as (Hb & Hn & Hwfm & Hag & Hpb & _ & _ & _ & _ & _ & _ & Hst & _ & Hop).
  fold b in Hb, Hpb.
  set (dm := snd (makeButton i d)) in *.
  assert (Hc2 : Dom.childNodes d2 = Dom.childNodes dm)
    by (unfold d2; destruct dis; reflexivity).
  assert (Hp2 : Dom.parentNode d2 = Dom.parentNode dm)
    by (unfold d2; destruct dis; reflexivity).
  assert (Hn2 : Dom.nextId d2 = Dom.nextId dm)
    by (unfold d2; destruct dis; reflexivity).
  assert (Hs2 : Dom.style d2 = Dom.style dm)
    by (unfold d2; destruct dis; reflexivity).
  assert (Ho2 : Dom.opacity d2 = Dom.opacity dm)
    by (unfold d2; destruct dis; reflexivity).
  assert (Hwf2 : wellFormed d2)
    by (apply (wellFormed_ext dm); [assumption | assumption | lia | assumption]).
  assert (Htr2 : (trEl < Dom.nextId d2)%nat) by lia.
  assert (Hb2 : (b < Dom.nextId d2)%nat) by lia.
  destruct (appendDiv_tree trEl d2 b Hwf2 Htr2 Hb2) as (Hwf3 & Hn3 & Hp3 & _).
  fold d3 in Hwf3, Hn3, Hp3.
  assert (Hnb : ~ In b divs) by (intros H; apply Hdivs in H; lia).
  split; [assumption|]. split; [lia|].
  split.
  { rewrite Hp3.
    assert (E1 : Nat.eqb trEl (Dom.nextId d2) = false)
      by (apply Nat.eqb_neq; lia).
    assert (E2 : Nat.eqb trEl b = false) by (apply Nat.eqb_neq; lia).
    rewrite E1, E2, Hp2. destruct (Hag trEl Htr) as [_ ->]. assumption. }
  split.
  { intros r Hr.
    assert (Hrn : (r < Dom.nextId d)%nat) by apply Hr.
    destruct (agree_row d dm divs r Hwf Hag ltac:(lia) Hr) as [Hrm Hcm].
    assert (Hr2 : isRow d2 divs r).
    { destruct Hrm as (A & B & C & D).
      split; [lia|]. split; [now rewrite Hp2|]. split; [assumption|].
      now rewrite Hc2. }
    assert (Hc2' : pageContent d2 divs r = pageContent d divs r).
    { rewrite <- Hcm. unfold pageContent. now rewrite Hc2. }
    assert (Hdiv2 : forall x, In x divs -> (x < Dom.nextId d2)%nat)
      by (intros x Hx; apply Hdivs in Hx; lia).
    assert (Hbr : ~ In b (Dom.childNodes d2 r))
      by (apply detached_notin; [apply Hwf2 | now rewrite Hp2]).
    split; [|split].
    - apply appendDiv_isRow; try assumption. lia.
    - unfold d3. rewrite appendDiv_content; try assumption.
      + rewrite remove_notin
          by (intros H; apply pageContent_divs in H; contradiction).
        rewrite Hc2'.
        assert (E : isDiv divs b = false).
        { destruct (isDiv divs b) eqn:E; [|reflexivity].
          apply isDiv_In in E. contradiction. }
        cbn [filter]. rewrite E. destruct (Nat.eqb r trEl);
          now rewrite app_nil_r.
      + rewrite Hp2. destruct (Hag trEl Htr) as [_ ->]. assumption.
    - intros Hne. unfold d3.
      rewrite appendDiv_other_children; try assumption; [|lia].
      rewrite Hc2. apply (Hag r Hrn). }
  split.
  { intros x Hx. unfold d3.
    rewrite (proj1 (appendDiv_frame trEl d2 b)), Hs2. now apply Hst. }
  unfold d3.
  rewrite (proj1 (proj2 (appendDiv_frame trEl d2 b))), Ho2. exact Hop.
Qed.

Lemma NoDup_app_disjoint {A} (l1 l2 : list A) x :
  NoDup (l1 ++ l2) -> In x l1 -> ~ In x l2.
Proof.
  induction l1 as [|a l1 IH]; intros Hnd Hx; [destruct Hx|].
  inversion Hnd as [|? ? Ha Hnd']; subst.
  destruct Hx as [-> | Hx]; [|now apply IH].
  intros H. apply Ha. apply in_or_app. now right.
Qed.

Lemma NoDup_skipn {A} (l : list A) n : NoDup l -> NoDup (skipn n l).
Proof.
  intros H. rewrite <- (firstn_skipn n l) in H.
  now apply NoDup_app_remove_l in H.
Qed.

Lemma In_skipn {A} (l : list A) n x : In x (skipn n l) -> In x l.
Proof.
  intros H. rewrite <- (firstn_skipn n l). apply in_or_app. now right.
Qed.

Lemma In_firstn {A} (l : list A) n x : In x (firstn n l) -> In x l.
Proof.
  intros H. rewrite <- (firstn_skipn n l). apply in_or_app. now left.
Qed.

(** The page at [j] and everything from page [i] on have nothing in
    common when [j < i]. *)
Lemma page_disjoint k divs j i x :
  NoDup divs -> (S j <= i)%nat ->
  In x (page k divs j) -> ~ In x (skipn (i * k) divs).
Proof.
  intros Hnd Hji Hx. unfold page in Hx.
  assert (Hsplit : skipn (j * k) divs =
            firstn k (skipn (j * k) divs) ++ skipn (S j * k) divs).
  { rewrite <- (firstn_skipn k (skipn (j * k) divs)) at 1.
    f_equal. rewrite skipn_skipn. f_equal; simpl; lia. }
  assert (Hnd' : NoDup (skipn (j * k) divs)) by now apply NoDup_skipn.
  rewrite Hsplit in Hnd'.
  intros Hin. apply (NoDup_app_disjoint _ _ x Hnd' Hx).
  replace (i * k)%nat with ((i * k - S j * k) + S j * k)%nat in Hin
    by (assert (S j * k <= i * k)%nat by (apply Nat.mul_le_mono_r; lia); lia).
  rewrite <- skipn_skipn in Hin. now apply In_skipn in Hin.
Qed.

Lemma page_last k divs j :
  NoDup divs ->
  removeAll (skipn (S j * k) divs) (skipn (j * k) divs) = page k divs j.
Proof.
  intros Hnd. unfold page.
  assert (Hsplit : skipn (j * k) divs =
            firstn k (skipn (j * k) divs) ++ skipn (S j * k) divs).
  { rewrite <- (firstn_skipn k (skipn (j * k) divs)) at 1.
    f_equal. rewrite skipn_skipn. f_equal; simpl; lia. }
  rewrite Hsplit at 1. apply removeAll_suffix. rewrite <- Hsplit.
  now apply NoDup_skipn.
Qed.

Lemma appendDiv_unfold trEl d c td d1 :
  Dom.createElement Dom.TD d = (td, d1) ->
  Dom.appendChild trEl td (Dom.appendChild td c d1) = appendDiv trEl d c.
Proof. intros E. unfold appendDiv. now rewrite E. Qed.

(** One pass of the outer loop. *)
Lemma buildRow_row (divs : list Node) kn i d rows :
  NoDup divs -> wellFormed d ->
  (forall x, In x divs -> (x < Dom.nextId d)%nat) ->
  let res := buildRow divs (Z.of_nat kn) i (d, rows) in
  let stolen := @skipn Node (i * kn) divs in
  snd res = rows ++ [Dom.nextId d] /\
  wellFormed (fst res) /\ (Dom.nextId d < Dom.nextId (fst res))%nat /\
  (forall r, isRow d divs r ->
     isRow (fst res) divs r /\
     pageContent (fst res) divs r = removeAll stolen (pageContent d divs r) /\
     Dom.childNodes (fst res) r = Dom.childNodes d r) /\
  isRow (fst res) divs (Dom.nextId d) /\
  pageContent (fst res) divs (Dom.nextId d) = stolen /\
  (forall x, (x < Dom.nextId d)%nat ->
     Dom.style (fst res) x = Dom.style d x) /\
  Dom.style (fst res) (Dom.nextId d) "display" =
    (if (0 <? i)%nat then "none"%string
     else Dom.style d (Dom.nextId d) "display") /\
  Dom.opacity (fst res) = Dom.opacity d.
Proof.
  intros Hnd Hwf Hdivs res stolen. subst stolen. unfold res, buildRow.
  cbv beta iota zeta.
  destruct (Dom.createElement Dom.TR d) as [trEl d1] eqn:E0.
  unfold Dom.createElement in E0. injection E0 as Etr Ed1.
  cbv beta iota zeta.
  set (d2 := if (0 <? i)%nat then Dom.setStyle trEl "display" "none" d1
             else d1).
  destruct (makeButton i d2) as [lb d3] eqn:E1.
  cbv beta iota zeta.
  set (d4 := if (i =? 0)%nat then Dom.setDisabled lb true d3 else d3).
  destruct (Dom.createElement Dom.TD d4) as [ltd d5] eqn:E2.
  cbv beta iota zeta.
  rewrite (appendDiv_unfold trEl d4 lb ltd d5 E2).
  replace (Z.to_nat (Z.of_nat i * Z.of_nat kn)) with (i * kn)%nat by lia.
  set (stolen := @skipn Node (i * kn) divs).
  set (d6 := appendDiv trEl d4 lb).
  set (d7 := fold_left (appendDiv trEl) stolen d6).
  destruct (makeButton i d7) as [rb d8] eqn:E3.
  cbv beta iota zeta.
  set (d9 := if isLastRow (Z.of_nat (List.length divs)) (Z.of_nat kn) i
             then Dom.setDisabled rb true d8 else d8).
  destruct (Dom.createElement Dom.TD d9) as [rtd d10] eqn:E4.
  cbv beta iota zeta.
  rewrite (appendDiv_unfold trEl d9 rb rtd d10 E4).
  set (d11 := appendDiv trEl d9 rb).
  cbn [fst snd].
  (* the new row, empty *)
  assert (Hc1 : Dom.childNodes d2 = Dom.childNodes d)
    by (unfold d2; destruct (0 <? i)%nat; rewrite <- Ed1; reflexivity).
  assert (Hp1 : Dom.parentNode d2 = Dom.parentNode d)
    by (unfold d2; destruct (0 <? i)%nat; rewrite <- Ed1; reflexivity).
  assert (Hn1 : Dom.nextId d2 = S (Dom.nextId d))
    by (unfold d2; destruct (0 <? i)%nat; rewrite <- Ed1; reflexivity).
  assert (Ho1 : Dom.opacity d2 = Dom.opacity d)
    by (unfold d2; destruct (0 <? i)%nat; rewrite <- Ed1; reflexivity).
  assert (Hs1 : forall x, (x < Dom.nextId d)%nat ->
            Dom.style d2 x = Dom.style d x).
  { intros x Hx. unfold d2. destruct (0 <? i)%nat; rewrite <- Ed1;
      [|reflexivity].
    simpl. apply upd_other. lia. }
  assert (Hs1' : Dom.style d2 trEl "display" =
            (if (0 <? i)%nat then "none"%string
             else Dom.style d trEl "display")).
  { unfold d2. destruct (0 <? i)%nat; rewrite <- Ed1; [|reflexivity].
    rewrite style_setStyle, Nat.eqb_refl. reflexivity. }
  assert (Hwf2 : wellFormed d2)
    by (apply (wellFormed_ext d); [assumption | assumption | lia | assumption]).
  assert (Hdiv2 : forall x, In x divs -> (x < Dom.nextId d2)%nat)
    by (intros x Hx; apply Hdivs in Hx; lia).
  assert (Htr2 : (trEl < Dom.nextId d2)%nat) by lia.
  assert (Hnew : Dom.childNodes d trEl = [] /\ Dom.parentNode d trEl = None)
    by (apply (proj2 Hwf); lia).
  assert (Hpar2 : Dom.parentNode d2 trEl = None)
    by (rewrite Hp1; apply Hnew).
  assert (Hntr : ~ In trEl divs) by (intros H; apply Hdivs in H; lia).
  assert (Hrow2 : forall r, isRow d divs r ->
            isRow d2 divs r /\ pageContent d2 divs r = pageContent d divs r).
  { intros r (A & B & C & D). split.
    - split; [lia|]. split; [now rewrite Hp1|]. split; [assumption|].
      now rewrite Hc1.
    - unfold pageContent. now rewrite Hc1. }
  assert (Hkids2 : forall r, Dom.childNodes d2 r = Dom.childNodes d r)
    by (intros r; now rewrite Hc1).
  assert (Hnew2 : isRow d2 divs trEl /\ pageContent d2 divs trEl = []).
  { split.
    - split; [assumption|]. split; [assumption|]. split; [assumption|].
      rewrite Hc1, (proj1 Hnew). intros x [].
    - unfold pageContent. rewrite Hc1, (proj1 Hnew). reflexivity. }
  (* the left button *)
  pose proof (addButton trEl divs i (i =? 0)%nat d2 Hwf2 Htr2 Hpar2 Hdiv2)
    as HL.
  rewrite E1 in HL. cbn [fst snd] in HL. fold d4 d6 in HL.
  destruct HL as (Hwf6 & Hn6 & Hpar6 & Hrow6 & Hs6 & Ho6).
  (* the cells *)
  assert (Hdiv6 : forall x, In x divs -> (x < Dom.nextId d6)%nat)
    by (intros x Hx; apply Hdivs in Hx; lia).
  destruct (fold_appendDiv trEl divs stolen d6 Hwf6 ltac:(lia) Hpar6 Hntr Hdiv6)
    as (Hwf7 & Hn7 & Hpar7 & Hrow7 & Hs7 & Ho7 & _).
  { intros c Hc. now apply In_skipn in Hc. }
  { now apply NoDup_skipn. }
  fold d7 in Hwf7, Hn7, Hpar7, Hrow7, Hs7, Ho7.
  (* the right button *)
  assert (Hdiv7 : forall x, In x divs -> (x < Dom.nextId d7)%nat)
    by (intros x Hx; apply Hdivs in Hx; lia).
  pose proof (addButton trEl divs i
                (isLastRow (Z.of_nat (List.length divs)) (Z.of_nat kn) i)
                d7 Hwf7 ltac:(lia) Hpar7 Hdiv7) as HR.
  rewrite E3 in HR. cbn [fst snd] in HR. fold d9 d11 in HR.
  destruct HR as (Hwf11 & Hn11 & Hpar11 & Hrow11 & Hs11 & Ho11).
  (* together *)
  assert (Hall : forall r, isRow d2 divs r ->
            isRow d11 divs r /\
            pageContent d11 divs r =
              removeAll stolen (pageContent d2 divs r) ++
              (if Nat.eqb r trEl then stolen else []) /\
            (r <> trEl -> Dom.childNodes d11 r = Dom.childNodes d2 r)).
  { intros r Hr. destruct (Hrow6 r Hr) as (R6 & C6 & K6).
    destruct (Hrow7 r R6) as (R7 & C7 & K7).
    destruct (Hrow11 r R7) as (R11 & C11 & K11).
    split; [assumption|]. split; [now rewrite C11, C7, C6|].
    intros Hne. now rewrite (K11 Hne), (K7 Hne), (K6 Hne). }
  subst trEl.
  split; [reflexivity|]. split; [assumption|]. split; [lia|].
  split.
  { intros r Hr. destruct (Hrow2 r Hr) as [R2 C2].
    destruct (Hall r R2) as (R11 & C11 & K11). split; [assumption|].
    assert (Hne : r <> Dom.nextId d) by (destruct Hr; lia).
    split.
    - rewrite C11, C2. apply Nat.eqb_neq in Hne.
      now rewrite Hne, app_nil_r.
    - rewrite (K11 Hne). apply Hkids2. }
  destruct (Hall _ (proj1 Hnew2)) as (R11 & C11 & _).
  split; [assumption|].
  split.
  { rewrite C11, (proj2 Hnew2), Nat.eqb_refl.
    now rewrite removeAll_disjoint by (intros x []). }
  split.
  { intros x Hx. rewrite Hs11 by lia. rewrite Hs7, Hs6 by lia.
    now apply Hs1. }
  split.
  { rewrite Hs11 by lia. rewrite Hs7, Hs6 by lia. exact Hs1'. }
  now rewrite Ho11, Ho7, Ho6.
Qed.

Lemma moreRows_iff n kn i :
  (1 <= kn)%nat ->
  moreRows (Z.of_nat n) (Z.of_nat kn) i = true <-> (i < pageCount n kn)%nat.
Proof.
  intros Hk. unfold moreRows, pageCount.
  rewrite andb_true_iff, !Z.ltb_lt. split.
  - intros [_ H]. assert (Hlt : (i * kn < n)%nat) by nia.
    apply Nat.lt_le_trans with (S i); [lia|].
    apply Nat.div_le_lower_bound; [lia|]. nia.
  - intros H. split; [lia|].
    destruct (Nat.lt_ge_cases (i * kn) n) as [Hlt | Hge]; [nia|].
    exfalso. apply (Nat.lt_irrefl i). eapply Nat.lt_le_trans; [exact H|].
    apply Nat.lt_succ_r. apply Nat.Div0.div_lt_upper_bound. nia.
Qed.

Lemma pageCount_le n kn : (1 <= kn)%nat -> (pageCount n kn <= n)%nat.
Proof.
  intros Hk. unfold pageCount. apply Nat.lt_succ_r.
  apply Nat.Div0.div_lt_upper_bound. nia.
Qed.

Lemma pageCount_covers n kn i :
  (1 <= kn)%nat -> (pageCount n kn <= i)%nat -> (n <= i * kn)%nat.
Proof.
  intros Hk H. destruct (Nat.lt_ge_cases (i * kn) n) as [Hlt | Hge];
    [|assumption].
  exfalso. assert (Hm : moreRows (Z.of_nat n) (Z.of_nat kn) i = true).
  { unfold moreRows. rewrite andb_true_iff, !Z.ltb_lt. split; [lia | nia]. }
  apply moreRows_iff in Hm; [lia | assumption].
Qed.

(** One pass of the outer loop keeps the invariant. *)
Lemma loopInv_step d0 table (divs : list Node) kn i d rows :
  NoDup divs ->
  loopInv d0 table divs kn i d rows ->
  let res := buildRow divs (Z.of_nat kn) i (d, rows) in
  loopInv d0 table divs kn (S i) (fst res) (snd res).
Proof.
  intros Hnd (Hb & Hndr & Htab & Htn & Htrow & Htc & Hst & Hop & H0 & Hdisp) res.
  destruct Hb as (Hwf & Hdivs & Hlen & Hrows & Hcont).
  destruct (buildRow_row divs kn i d rows Hnd Hwf Hdivs)
    as (Er & Hwf' & Hn' & Hrow' & Hnew & Hcnew & Hs' & Hd' & Ho').
  fold res in Er, Hwf', Hn', Hrow', Hnew, Hcnew, Hs', Hd', Ho'.
  rewrite Er.
  assert (Hfresh : ~ In (Dom.nextId d) rows).
  { intros H. apply Hrows in H. destruct H as (H & _). lia. }
  split; [|split; [|split; [|split; [|split; [|split; [|split; [|split; [|split]]]]]]]].
  - (* built *)
    split; [assumption|]. split; [intros x Hx; apply Hdivs in Hx; lia|].
    split; [rewrite length_app; simpl; lia|].
    split.
    { intros r Hr. apply in_app_or in Hr. destruct Hr as [Hr | [<- | []]].
      - now apply Hrow', Hrows.
      - assumption. }
    intros j r Hj.
    destruct (Nat.lt_ge_cases j (List.length rows)) as [Hlt | Hge].
    + rewrite nth_error_app1 in Hj by assumption.
      assert (Hr : In r rows) by (eapply nth_error_In; eassumption).
      destruct (Hrow' r (Hrows r Hr)) as (_ & -> & _). rewrite (Hcont j r Hj).
      assert (E : (S j <? S i)%nat = true) by (apply Nat.ltb_lt; lia).
      rewrite E. destruct (Nat.ltb_spec (S j) i) as [Hji | Hji].
      * apply removeAll_disjoint. intros x Hx.
        apply (page_disjoint kn divs j i x Hnd); [lia | assumption].
      * replace i with (S j) by lia. now apply page_last.
    + rewrite nth_error_app2 in Hj by assumption.
      destruct (j - List.length rows)%nat as [|m] eqn:Em; simpl in Hj.
      * injection Hj as <-. replace j with i by lia.
        rewrite Nat.ltb_irrefl. assumption.
      * destruct m; discriminate.
  - (* rows are distinct *)
    apply NoDup_app; [assumption | repeat constructor; intros [] | ].
    intros x Hx [<- | []]. contradiction.
  - intros r Hr. apply in_app_or in Hr. destruct Hr as [Hr | [<- | []]];
      [now apply Htab | assumption].
  - lia.
  - now apply Hrow'.
  - (* the table has no child yet *)
    destruct (Hrow' table Htrow) as (_ & _ & ->). assumption.
  - intros x Hx. rewrite Hs' by lia. now apply Hst.
  - congruence.
  - discriminate.
  - intros j r Hj.
    destruct (Nat.lt_ge_cases j (List.length rows)) as [Hlt | Hge].
    + rewrite nth_error_app1 in Hj by assumption.
      assert (Hr : In r rows) by (eapply nth_error_In; eassumption).
      rewrite Hs' by (apply (Hrows r Hr)). now apply Hdisp.
    + rewrite nth_error_app2 in Hj by assumption.
      destruct (j - List.length rows)%nat as [|m] eqn:Em; simpl in Hj.
      * injection Hj as <-. replace j with i by lia.
        rewrite Hd'. destruct i; [|reflexivity].
        simpl. now rewrite (H0 eq_refl).
      * destruct m; discriminate.
Qed.

Lemma buildRows_loop d0 table (divs : list Node) kn :
  (1 <= kn)%nat -> NoDup divs ->
  forall fuel i d rows,
    loopInv d0 table divs kn i d rows ->
    (pageCount (List.length divs) kn <= fuel + i)%nat ->
    (i <= pageCount (List.length divs) kn)%nat ->
    let res := buildRows fuel divs (Z.of_nat kn) i (d, rows) in
    loopInv d0 table divs kn (pageCount (List.length divs) kn)
            (fst res) (snd res).
Proof.
  intros Hk Hnd. induction fuel as [|fuel IH]; intros i d rows Hinv Hf Hi res.
  - unfold res. simpl. replace (pageCount (List.length divs) kn) with i by lia.
    assumption.
  - unfold res. cbn [buildRows].
    destruct (moreRows (Z.of_nat (List.length divs)) (Z.of_nat kn) i) eqn:Em.
    + apply moreRows_iff in Em; [|assumption].
      pose proof (loopInv_step d0 table divs kn i d rows Hnd Hinv) as Hstep.
      destruct (buildRow divs (Z.of_nat kn) i (d, rows)) as [d' rows'].
      apply IH; [exact Hstep | lia | lia].
    + assert (Hge : ~ (i < pageCount (List.length divs) kn)%nat).
      { intros H. apply (moreRows_iff _ _ _ Hk) in H. congruence. }
      cbn [fst snd].
      replace (pageCount (List.length divs) kn) with i by lia. assumption.
Qed.

(** The rows attached to the slideshow element, one after the other. *)
Lemma attach_rows table divs : forall rows d,
  wellFormed d -> (table < Dom.nextId d)%nat -> NoDup rows ->
  (forall r, In r rows -> isRow d divs r /\ r <> table) ->
  let d' := fold_left (fun d' trEl => Dom.appendChild table trEl d') rows d in
  (forall x, x <> table -> Dom.childNodes d' x = Dom.childNodes d x) /\
  Dom.childNodes d' table = Dom.childNodes d table ++ rows /\
  Dom.style d' = Dom.style d /\ Dom.opacity d' = Dom.opacity d.
Proof.
  induction rows as [|tr rows IH]; intros d Hwf Ht Hnd Hrows d'.
  - unfold d'. simpl. rewrite app_nil_r. repeat split; reflexivity.
  - inversion Hnd as [|? ? Hnotin Hnd']; subst.
    destruct (Hrows tr (or_introl eq_refl)) as [(Htr & Hptr & _ & _) Hne].
    assert (Hdet : forall x, ~ In tr (Dom.childNodes d x))
      by (intros x; apply detached_notin; [apply Hwf | assumption]).
    assert (Hcn : forall x, Dom.childNodes (Dom.appendChild table tr d) x =
              if Nat.eqb x table then Dom.childNodes d table ++ [tr]
              else Dom.childNodes d x).
    { intros x. rewrite appendChild_childNodes by apply Hwf.
      rewrite !remove_notin by apply Hdet. reflexivity. }
    destruct (IH (Dom.appendChild table tr d)) as (H1 & H2 & H3 & H4).
    + now apply appendChild_wellFormed.
    + assumption.
    + assumption.
    + intros r Hr. destruct (Hrows r (or_intror Hr)) as [(A & B & C & D) E].
      split; [|assumption].
      split; [assumption|]. split.
      { rewrite appendChild_parentNode.
        assert (Ert : Nat.eqb r tr = false)
          by (apply Nat.eqb_neq; intros ->; contradiction).
        now rewrite Ert. }
      split; [assumption|]. rewrite Hcn.
      apply Nat.eqb_neq in E. now rewrite E.
    + unfold d'. cbn [fold_left]. split.
      { intros x Hx. rewrite (H1 x Hx), Hcn. apply Nat.eqb_neq in Hx.
        now rewrite Hx. }
      split.
      { rewrite H2, Hcn, Nat.eqb_refl, <- app_assoc. reflexivity. }
      split; [rewrite H3 | rewrite H4]; reflexivity.
Qed.

Lemma firstn_add {A} (l : list A) : forall a b,
  firstn (a + b) l = firstn a l ++ firstn b (skipn a l).
Proof.
  induction l as [|x l IH]; intros a b.
  - now rewrite !firstn_nil, skipn_nil, firstn_nil.
  - destruct a; simpl; [reflexivity|]. now rewrite IH.
Qed.

Lemma concat_pages k (l : list Node) r :
  List.concat (map (page k l) (seq 0 r)) = firstn (r * k) l.
Proof.
  induction r as [|r IH]; [reflexivity|].
  rewrite seq_S, map_app, concat_app, IH. simpl.
  rewrite app_nil_r. unfold page.
  replace (k + r * k)%nat with (r * k + k)%nat by lia.
  now rewrite firstn_add.
Qed.

Lemma nth_error_ext {A} (l1 l2 : list A) :
  (forall j, nth_error l1 j = nth_error l2 j) -> l1 = l2.
Proof.
  revert l2. induction l1 as [|a l1 IH]; intros [|b l2] H.
  - reflexivity.
  - specialize (H 0%nat). discriminate.
  - specialize (H 0%nat). discriminate.
  - pose proof (H 0%nat) as H0. simpl in H0. injection H0 as ->.
    f_equal. apply IH. intros j. apply (H (S j)).
Qed.

(** *** The buttons *)

Lemma kept_refl divs d x : kept divs d d x.
Proof.
  split; [reflexivity|]. split; [reflexivity|]. split; [reflexivity|].
  split; intros; reflexivity.
Qed.

Lemma kept_trans divs d d1 d2 x :
  kept divs d d1 x -> kept divs d1 d2 x -> kept divs d d2 x.
Proof.
  intros (A1 & B1 & C1 & D1 & E1) (A2 & B2 & C2 & D2 & E2).
  split; [now rewrite A2|]. split; [now rewrite B2|].
  split; [now rewrite C2|]. split.
  - intros Hx Hp. rewrite D2.
    + now apply D1.
    + assumption.
    + now rewrite D1.
  - intros H. rewrite E2; [now apply E1|]. now rewrite E1.
Qed.

Lemma isButton_kept divs d d' b j :
  isButton d b j -> (Dom.nextId d <= Dom.nextId d')%nat ->
  (forall x, In x divs -> (x < b)%nat) ->
  kept divs d d' b -> kept divs d d' (S b) -> kept divs d d' (S (S b)) ->
  isButton d' b j.
Proof.
  intros (Hn & Ht & Hc & Hta & Hpa & Hh) Hle Hdivs Kb Ka Kh.
  destruct Kb as (Tb & _ & _ & _ & Cb).
  destruct Ka as (Ta & _ & _ & Pa & _).
  destruct Kh as (_ & Xh & _ & _ & _).
  split; [lia|]. split; [now rewrite Tb|]. split.
  { rewrite Cb; [assumption|]. rewrite Hc.
    intros c [<- | [<- | []]] H; apply Hdivs in H; lia. }
  split; [now rewrite Ta|]. split.
  { rewrite Pa; [assumption | | rewrite Hpa; discriminate].
    intros H. apply Hdivs in H. lia. }
  now rewrite Xh.
Qed.

Lemma wired_kept divs d d' r j last :
  wired d r j last -> (Dom.nextId d <= Dom.nextId d')%nat ->
  (forall x, In x divs -> (x < r)%nat) ->
  Dom.childNodes d' r = Dom.childNodes d r ->
  (forall x, (r < x)%nat -> (x < Dom.nextId d)%nat -> kept divs d d' x) ->
  wired d' r j last.
Proof.
  intros (tdl & bl & tdr & br & H1 & H2 & H3 & H4 & L1 & L2 & L3 &
          R1 & R2 & R3 & Bl & Br & Dl & Dr) Hle Hdivs Hc K.
  assert (Hbl : (S (S bl) < Dom.nextId d)%nat) by apply Bl.
  assert (Hbr : (S (S br) < Dom.nextId d)%nat) by apply Br.
  exists tdl, bl, tdr, br. rewrite Hc.
  split; [assumption|]. split; [assumption|].
  split.
  { destruct (K tdl) as (_ & _ & _ & _ & C); [lia | lia |].
    rewrite C; [assumption|]. rewrite H3.
    intros c [<- | []] H. apply Hdivs in H. lia. }
  split.
  { destruct (K tdr) as (_ & _ & _ & _ & C); [lia | lia |].
    rewrite C; [assumption|]. rewrite H4.
    intros c [<- | []] H. apply Hdivs in H. lia. }
  split; [lia|]. split; [lia|]. split; [lia|].
  split; [lia|]. split; [lia|]. split; [lia|].
  split.
  { apply (isButton_kept divs d); try assumption.
    - intros x Hx. apply Hdivs in Hx. lia.
    - apply K; lia.
    - apply K; lia.
    - apply K; lia. }
  split.
  { apply (isButton_kept divs d); try assumption.
    - intros x Hx. apply Hdivs in Hx. lia.
    - apply K; lia.
    - apply K; lia.
    - apply K; lia. }
  split.
  - destruct (K bl) as (_ & _ & D & _); [lia | lia |]. now rewrite D.
  - destruct (K br) as (_ & _ & D & _); [lia | lia |]. now rewrite D.
Qed.

Lemma appendDiv_kept trEl d c divs x :
  wellFormed d -> (trEl < Dom.nextId d)%nat -> (c < Dom.nextId d)%nat ->
  (x < Dom.nextId d)%nat -> x <> trEl ->
  In c divs \/ Dom.parentNode d c = None ->
  kept divs d (appendDiv trEl d c) x.
Proof.
  intros Hwf Ht Hc Hx Hne Hcase.
  destruct (appendDiv_tree trEl d c Hwf Ht Hc) as (_ & _ & Hp & Hk).
  assert (E1 : Nat.eqb x trEl = false) by (now apply Nat.eqb_neq).
  assert (E2 : Nat.eqb x (Dom.nextId d) = false) by (apply Nat.eqb_neq; lia).
  split.
  { change (Dom.tagName (appendDiv trEl d c))
      with (Dom.upd (Dom.tagName d) (Dom.nextId d) Dom.TD).
    apply upd_other. lia. }
  split; [reflexivity|]. split; [reflexivity|]. split.
  - intros Hnd Hpar. rewrite Hp, E2.
    destruct (Nat.eqb_spec x c) as [-> | _]; [|reflexivity].
    destruct Hcase as [H | H]; contradiction.
  - intros H. rewrite Hk, E1, E2. apply remove_notin.
    destruct Hcase as [Hd | Hd].
    + intros Hin. now apply (H c Hin).
    + now apply detached_notin; [apply Hwf|].
Qed.

Lemma fold_appendDiv_kept trEl divs : forall l d,
  wellFormed d -> (trEl < Dom.nextId d)%nat ->
  (forall c, In c l -> In c divs /\ (c < Dom.nextId d)%nat) ->
  let d' := fold_left (appendDiv trEl) l d in
  (forall x, (x < Dom.nextId d)%nat -> x <> trEl -> kept divs d d' x) /\
  (forall t, hd_error (Dom.childNodes d trEl) = Some t -> ~ In t divs ->
     hd_error (Dom.childNodes d' trEl) = Some t).
Proof.
  induction l as [|c l IH]; intros d Hwf Ht Hl d'.
  - unfold d'. cbn [fold_left]. split.
    + intros x _ _. apply kept_refl.
    + intros t H _. exact H.
  - destruct (Hl c (or_introl eq_refl)) as [Hcd Hc].
    destruct (appendDiv_tree trEl d c Hwf Ht Hc) as (Hwf1 & Hn1 & _ & Hk1).
    destruct (IH (appendDiv trEl d c) Hwf1) as [K H].
    { lia. }
    { intros c' Hc'. destruct (Hl c' (or_intror Hc')). split; [assumption | lia]. }
    unfold d'. cbn [fold_left]. split.
    + intros x Hx Hne. apply kept_trans with (appendDiv trEl d c).
      * apply appendDiv_kept; try assumption. now left.
      * apply K; [lia | assumption].
    + intros t Ht1 Ht2. apply H; [|assumption].
      rewrite Hk1, Nat.eqb_refl.
      destruct (Dom.childNodes d trEl) as [|t' rest]; [discriminate|].
      injection Ht1 as ->. simpl.
      destruct (Nat.eqb_spec t c) as [-> | _]; [contradiction | reflexivity].
Qed.

Lemma makeButton_kept i d divs x :
  wellFormed d -> (x < Dom.nextId d)%nat ->
  kept divs d (snd (makeButton i d)) x.
Proof.
  intros Hwf Hx.
  destruct (makeButton_tree i d Hwf)
    as (_ & _ & _ & Hag & _ & _ & _ & _ & _ & _ & _ & Hst & _).
  destruct (Hag x Hx) as [Ec Ep]. destruct (Hst x Hx) as (_ & Ed & Et).
  split.
  { simpl. rewrite !upd_other by lia. reflexivity. }
  split; [assumption|]. split; [assumption|].
  split; [intros _ _; assumption | intros _; assumption].
Qed.

Lemma setDisabled_kept divs b v d x :
  x <> b -> kept divs d (Dom.setDisabled b v d) x.
Proof.
  intros H. split; [reflexivity|]. split; [reflexivity|].
  split; [simpl; now apply upd_other|]. split; intros; reflexivity.
Qed.

(** A button built, possibly disabled, and wrapped in a new cell of
    [trEl]: the cell, the button and its marker. *)
Lemma addButton_wired trEl divs i (dis : bool) d :
  wellFormed d -> (trEl < Dom.nextId d)%nat ->
  let b := fst (makeButton i d) in
  let d2 := if dis then Dom.setDisabled b true (snd (makeButton i d))
            else snd (makeButton i d) in
  let d3 := appendDiv trEl d2 b in
  b = Dom.nextId d /\ Dom.nextId d3 = (4 + Dom.nextId d)%nat /\
  (forall x, (x < Dom.nextId d)%nat -> x <> trEl -> kept divs d d3 x) /\
  Dom.childNodes d3 trEl = Dom.childNodes d trEl ++ [(3 + Dom.nextId d)%nat] /\
  Dom.childNodes d3 (3 + Dom.nextId d)%nat = [b] /\
  isButton d3 b i /\
  Dom.disabled d3 b = (if dis then true else Dom.disabled d b) /\
  (forall x, x <> b -> Dom.disabled d3 x = Dom.disabled d x).
Proof.
  intros Hwf Htr b d2 d3.
  destruct (makeButton_tree i d Hwf)
    as (Hb & Hn & Hwfm & Hag & Hpb & Hcb & Hpa & _ & Hth & Htb & Hta & _ & Hdb & _).
  fold b in Hb, Hpb, Hcb, Hpa, Hth, Htb, Hta, Hdb.
  set (dm := snd (makeButton i d)) in *.
  assert (Hc2 : Dom.childNodes d2 = Dom.childNodes dm)
    by (unfold d2; destruct dis; reflexivity).
  assert (Hp2 : Dom.parentNode d2 = Dom.parentNode dm)
    by (unfold d2; destruct dis; reflexivity).
  assert (Hn2 : Dom.nextId d2 = Dom.nextId dm)
    by (unfold d2; destruct dis; reflexivity).
  assert (Ht2 : Dom.tagName d2 = Dom.tagName dm)
    by (unfold d2; destruct dis; reflexivity).
  assert (Hx2 : Dom.textContent d2 = Dom.textContent dm)
    by (unfold d2; destruct dis; reflexivity).
  assert (Hwf2 : wellFormed d2)
    by (apply (wellFormed_ext dm); [assumption | assumption | lia | assumption]).
  assert (Htr2 : (trEl < Dom.nextId d2)%nat) by lia.
  assert (Hb2 : (b < Dom.nextId d2)%nat) by lia.
  destruct (appendDiv_tree trEl d2 b Hwf2 Htr2 Hb2) as (_ & Hn3 & Hp3 & Hk3).
  fold d3 in Hn3, Hp3, Hk3.
  assert (Htag3 : forall x, (x < Dom.nextId d2)%nat ->
            Dom.tagName d3 x = Dom.tagName dm x).
  { intros x Hx.
    change (Dom.tagName d3)
      with (Dom.upd (Dom.tagName d2) (Dom.nextId d2) Dom.TD).
    rewrite upd_other by lia. now rewrite Ht2. }
  split; [assumption|]. split; [lia|].
  split.
  { intros x Hx Hne. apply kept_trans with dm.
    { now apply makeButton_kept. }
    apply kept_trans with d2.
    { unfold d2. destruct dis; [apply setDisabled_kept; lia | apply kept_refl]. }
    apply appendDiv_kept; try assumption; try lia.
    right. now rewrite Hp2. }
  split.
  { rewrite Hk3, Nat.eqb_refl, Hc2, Hn2, Hn.
    rewrite (proj1 (Hag trEl Htr)).
    rewrite remove_notin; [reflexivity|].
    apply fresh_notin; [assumption | lia]. }
  split.
  { rewrite Hk3.
    assert (E : Nat.eqb (3 + Dom.nextId d) trEl = false)
      by (apply Nat.eqb_neq; lia).
    rewrite E, Hn2, Hn, Nat.eqb_refl. reflexivity. }
  assert (Eb1 : Nat.eqb b trEl = false) by (apply Nat.eqb_neq; lia).
  assert (Eb2 : Nat.eqb b (Dom.nextId d2) = false) by (apply Nat.eqb_neq; lia).
  assert (Ea1 : Nat.eqb (S b) (Dom.nextId d2) = false)
    by (apply Nat.eqb_neq; lia).
  assert (Ea2 : Nat.eqb (S b) b = false) by (apply Nat.eqb_neq; lia).
  split.
  { split; [lia|].
    split; [rewrite Htag3 by lia; assumption|].
    split.
    { rewrite Hk3, Eb1, Eb2, Hc2, Hcb. apply remove_notin.
      intros [H | [H | []]]; lia. }
    split; [rewrite Htag3 by lia; assumption|].
    split.
    { rewrite Hp3, Ea1, Ea2, Hp2. assumption. }
    change (Dom.textContent d3) with (Dom.textContent d2).
    now rewrite Hx2. }
  split.
  { change (Dom.disabled d3) with (Dom.disabled d2). unfold d2.
    destruct dis; [simpl; apply upd_same | assumption]. }
  intros x Hx. change (Dom.disabled d3) with (Dom.disabled d2). unfold d2.
  destruct dis; [simpl; rewrite upd_other by assumption|]; reflexivity.
Qed.

(** One pass of the outer loop: the buttons of the new row, and the
    earlier rows left as they were. *)
Lemma buildRow_wired (divs : list Node) kn i d rows :
  NoDup divs -> wellFormed d ->
  (forall x, In x divs -> (x < Dom.nextId d)%nat) ->
  (forall x, (Dom.nextId d <= x)%nat -> Dom.disabled d x = false) ->
  let res := buildRow divs (Z.of_nat kn) i (d, rows) in
  (forall x, (x < Dom.nextId d)%nat -> kept divs d (fst res) x) /\
  wired (fst res) (Dom.nextId d) i
        (isLastRow (Z.of_nat (List.length divs)) (Z.of_nat kn) i) /\
  (forall x, (Dom.nextId (fst res) <= x)%nat ->
     Dom.disabled (fst res) x = false).
Proof.
  intros Hnd Hwf Hdivs Hdis res. unfold res, buildRow.
  cbv beta iota zeta.
  destruct (Dom.createElement Dom.TR d) as [trEl d1] eqn:E0.
  unfold Dom.createElement in E0. injection E0 as Etr Ed1.
  cbv beta iota zeta.
  set (d2 := if (0 <? i)%nat then Dom.setStyle trEl "display" "none" d1
             else d1).
  destruct (makeButton i d2) as [lb d3] eqn:E1.
  cbv beta iota zeta.
  set (d4 := if (i =? 0)%nat then Dom.setDisabled lb true d3 else d3).
  destruct (Dom.createElement Dom.TD d4) as [ltd d5] eqn:E2.
  cbv beta iota zeta.
  rewrite (appendDiv_unfold trEl d4 lb ltd d5 E2).
  replace (Z.to_nat (Z.of_nat i * Z.of_nat kn)) with (i * kn)%nat by lia.
  set (stolen := @skipn Node (i * kn) divs).
  set (d6 := appendDiv trEl d4 lb).
  set (d7 := fold_left (appendDiv trEl) stolen d6).
  destruct (makeButton i d7) as [rb d8] eqn:E3.
  cbv beta iota zeta.
  set (last := isLastRow (Z.of_nat (List.length divs)) (Z.of_nat kn) i).
  set (d9 := if last then Dom.setDisabled rb true d8 else d8).
  destruct (Dom.createElement Dom.TD d9) as [rtd d10] eqn:E4.
  cbv beta iota zeta.
  rewrite (appendDiv_unfold trEl d9 rb rtd d10 E4).
  set (d11 := appendDiv trEl d9 rb).
  cbn [fst snd].
  (* the new row, empty *)
  assert (Hc1 : Dom.childNodes d2 = Dom.childNodes d)
    by (unfold d2; destruct (0 <? i)%nat; rewrite <- Ed1; reflexivity).
  assert (Hp1 : Dom.parentNode d2 = Dom.parentNode d)
    by (unfold d2; destruct (0 <? i)%nat; rewrite <- Ed1; reflexivity).
  assert (Hn1 : Dom.nextId d2 = S (Dom.nextId d))
    by (unfold d2; destruct (0 <? i)%nat; rewrite <- Ed1; reflexivity).
  assert (Hd1 : Dom.disabled d2 = Dom.disabled d)
    by (unfold d2; destruct (0 <? i)%nat; rewrite <- Ed1; reflexivity).
  assert (K2 : forall x, (x < Dom.nextId d)%nat -> kept divs d d2 x).
  { intros x Hx. unfold d2. destruct (0 <? i)%nat; rewrite <- Ed1;
      (split; [simpl; apply upd_other; lia|]; split; [reflexivity|];
       split; [reflexivity|]; split; intros; reflexivity). }
  assert (Hwf2 : wellFormed d2)
    by (apply (wellFormed_ext d); [assumption | assumption | lia | assumption]).
  assert (Hdiv2 : forall x, In x divs -> (x < Dom.nextId d2)%nat)
    by (intros x Hx; apply Hdivs in Hx; lia).
  assert (Htr2 : (trEl < Dom.nextId d2)%nat) by lia.
  assert (Hnew : Dom.childNodes d trEl = [] /\ Dom.parentNode d trEl = None)
    by (apply (proj2 Hwf); lia).
  assert (Hpar2 : Dom.parentNode d2 trEl = None)
    by (rewrite Hp1; apply Hnew).
  assert (Hntr : ~ In trEl divs) by (intros H; apply Hdivs in H; lia).
  (* the left button *)
  pose proof (addButton trEl divs i (i =? 0)%nat d2 Hwf2 Htr2 Hpar2 Hdiv2)
    as HL.
  rewrite E1 in HL. cbn [fst snd] in HL. fold d4 d6 in HL.
  destruct HL as (Hwf6 & _ & Hpar6 & _).
  pose proof (addButton_wired trEl divs i (i =? 0)%nat d2 Hwf2 Htr2) as WL.
  rewrite E1 in WL. cbn [fst snd] in WL. fold d4 d6 in WL.
  destruct WL as (Elb & Hn6 & K6 & Hc6 & Hltd & Bl6 & Dl6 & Do6).
  (* the cells *)
  assert (Hdiv6 : forall x, In x divs -> (x < Dom.nextId d6)%nat)
    by (intros x Hx; apply Hdivs in Hx; lia).
  destruct (fold_appendDiv trEl divs stolen d6 Hwf6 ltac:(lia) Hpar6 Hntr Hdiv6)
    as (Hwf7 & Hn7 & Hpar7 & _ & _ & _ & Hd7 & _).
  { intros c Hc. now apply In_skipn in Hc. }
  { apply NoDup_skipn. assumption. }
  fold d7 in Hwf7, Hn7, Hpar7, Hd7.
  destruct (fold_appendDiv_kept trEl divs stolen d6 Hwf6 ltac:(lia))
    as [K7 H7].
  { intros c Hc. apply In_skipn in Hc. split; [assumption|].
    apply Hdivs in Hc. lia. }
  fold d7 in K7, H7.
  (* the right button *)
  pose proof (addButton_wired trEl divs i last d7 Hwf7 ltac:(lia)) as WR.
  rewrite E3 in WR. cbn [fst snd] in WR. fold d9 d11 in WR.
  destruct WR as (Erb & Hn11 & K11 & Hc11 & Hrtd & Br11 & Dr11 & Do11).
  assert (K : forall x, (x < Dom.nextId d6)%nat -> x <> trEl ->
            kept divs d6 d11 x).
  { intros x Hx Hne. apply kept_trans with d7; [now apply K7|].
    apply K11; [lia | assumption]. }
  assert (Hhd : hd_error (Dom.childNodes d7 trEl) = Some (3 + Dom.nextId d2)%nat).
  { apply H7.
    - rewrite Hc6, Hc1, (proj1 Hnew). reflexivity.
    - intros H. apply Hdivs in H. lia. }
  split.
  { intros x Hx. apply kept_trans with d2; [now apply K2|].
    apply kept_trans with d6; [apply K6; lia|]. apply K; lia. }
  split.
  { rewrite Etr.
    exists (3 + Dom.nextId d2)%nat, lb, (3 + Dom.nextId d7)%nat, rb.
    split.
    { rewrite Hc11. destruct (Dom.childNodes d7 trEl) as [|t rest];
        [discriminate | exact Hhd]. }
    split; [rewrite Hc11, rev_unit; reflexivity|].
    split.
    { destruct (K (3 + Dom.nextId d2)%nat) as (_ & _ & _ & _ & C);
        [lia | lia |].
      rewrite C; [assumption|]. rewrite Hltd.
      intros c [<- | []] H. apply Hdivs in H. lia. }
    split; [assumption|].
    split; [lia|]. split; [lia|]. split; [lia|].
    split; [lia|]. split; [lia|]. split; [lia|].
    split.
    { assert (Hb : (S (S lb) < Dom.nextId d6)%nat) by apply Bl6.
      apply (isButton_kept divs d6); try assumption.
      - lia.
      - intros x Hx. apply Hdivs in Hx. lia.
      - apply K; lia.
      - apply K; lia.
      - apply K; lia. }
    split; [assumption|].
    split.
    - destruct (K lb) as (_ & _ & D & _); [lia | lia |].
      rewrite D, Dl6, Hd1, (Hdis lb) by lia.
      destruct (i =? 0)%nat; reflexivity.
    - rewrite Dr11, Hd7, (Do6 rb) by lia. rewrite Hd1, (Hdis rb) by lia.
      destruct last; reflexivity. }
  intros x Hx. rewrite (Do11 x) by lia. rewrite Hd7, (Do6 x) by lia.
  rewrite Hd1. apply Hdis. lia.
Qed.

Lemma wiredInv_step d0 table (divs : list Node) kn i d rows :
  NoDup divs ->
  loopInv d0 table divs kn i d rows ->
  wiredInv table divs (Z.of_nat (List.length divs)) (Z.of_nat kn) d rows ->
  let res := buildRow divs (Z.of_nat kn) i (d, rows) in
  wiredInv table divs (Z.of_nat (List.length divs)) (Z.of_nat kn)
           (fst res) (snd res).
Proof.
  intros Hnd (Hb & _ & Htab & Htn & _) (Hlow & Hdis & Hw) res.
  destruct Hb as (Hwf & Hdivs & Hlen & Hrows & _).
  destruct (buildRow_row divs kn i d rows Hnd Hwf Hdivs)
    as (Er & _ & Hn' & Hrow' & _).
  destruct (buildRow_wired divs kn i d rows Hnd Hwf Hdivs Hdis)
    as (K & Hnew & Hd').
  fold res in Er, Hn', Hrow', K, Hnew, Hd'.
  rewrite Er. split; [assumption|]. split; [assumption|].
  intros j r Hj.
  destruct (Nat.lt_ge_cases j (List.length rows)) as [Hlt | Hge].
  - rewrite nth_error_app1 in Hj by assumption.
    assert (Hr : In r rows) by (eapply nth_error_In; eassumption).
    apply (wired_kept divs d).
    + now apply Hw.
    + lia.
    + intros x Hx. apply Hlow in Hx. apply Htab in Hr. lia.
    + now apply Hrow', Hrows.
    + intros x _ Hx. now apply K.
  - rewrite nth_error_app2 in Hj by assumption.
    destruct (j - List.length rows)%nat as [|m] eqn:Em; simpl in Hj.
    + injection Hj as <-. replace j with i by lia. assumption.
    + destruct m; discriminate.
Qed.

Lemma buildRows_wired d0 table (divs : list Node) kn :
  NoDup divs ->
  forall fuel i d rows,
    loopInv d0 table divs kn i d rows ->
    wiredInv table divs (Z.of_nat (List.length divs)) (Z.of_nat kn) d rows ->
    let res := buildRows fuel divs (Z.of_nat kn) i (d, rows) in
    wiredInv table divs (Z.of_nat (List.length divs)) (Z.of_nat kn)
             (fst res) (snd res).
Proof.
  intros Hnd. induction fuel as [|fuel IH]; intros i d rows Hinv Hw res.
  - exact Hw.
  - unfold res. cbn [buildRows].
    destruct (moreRows (Z.of_nat (List.length divs)) (Z.of_nat kn) i);
      [|exact Hw].
    pose proof (loopInv_step d0 table divs kn i d rows Hnd Hinv) as H1.
    pose proof (wiredInv_step d0 table divs kn i d rows Hnd Hinv Hw) as H2.
    destruct (buildRow divs (Z.of_nat kn) i (d, rows)) as [d' rows'].
    now apply IH.
Qed.

Lemma attach_kept table : forall rows d,
  let d' := fold_left (fun d' trEl => Dom.appendChild table trEl d') rows d in
  Dom.nextId d' = Dom.nextId d /\ Dom.tagName d' = Dom.tagName d /\
  Dom.textContent d' = Dom.textContent d /\
  Dom.disabled d' = Dom.disabled d /\
  forall x, ~ In x rows -> Dom.parentNode d' x = Dom.parentNode d x.
Proof.
  induction rows as [|tr rows IH]; intros d d'.
  - unfold d'. simpl. repeat split; reflexivity.
  - destruct (IH (Dom.appendChild table tr d)) as (A & B & C & D & E).
    unfold d'. cbn [fold_left].
    split; [now rewrite A|]. split; [now rewrite B|].
    split; [now rewrite C|]. split; [now rewrite D|].
    intros x Hx. rewrite E by (intros H; apply Hx; now right).
    rewrite appendChild_parentNode.
    destruct (Nat.eqb_spec x tr) as [-> | _]; [|reflexivity].
    exfalso. apply Hx. now left.
Qed.

Lemma isLastRow_iff n kn j :
  (1 <= kn)%nat -> (j < pageCount n kn)%nat ->
  isLastRow (Z.of_nat n) (Z.of_nat kn) j = Nat.eqb (S j) (pageCount n kn).
Proof.
  intros Hk Hj. unfold isLastRow.
  assert (E : (0 <? Z.of_nat kn) = true) by (apply Z.ltb_lt; lia).
  rewrite E.
  destruct (Z.leb_spec (Z.of_nat n) ((Z.of_nat j + 1) * Z.of_nat kn))
    as [Hle | Hgt];
    destruct (Nat.eqb_spec (S j) (pageCount n kn)) as [He | Hne];
    try reflexivity; exfalso.
  - assert (Hlt : (pageCount n kn < S (S j))%nat).
    { unfold pageCount. apply Nat.Div0.div_lt_upper_bound. nia. }
    lia.
  - assert (Hc : (n <= S j * kn)%nat)
      by (apply pageCount_covers; [assumption | lia]).
    nia.
Qed.

(** What [prepareSlideshow] returns, and what the loop has established
    when the rows are attached. *)
Lemma prepareSlideshow_loop (d : Dom.t) (divs : list Node) options kn :
  wellFormed d -> (forall x, In x divs -> (x < Dom.nextId d)%nat) ->
  NoDup divs -> numVisibleOf options = Z.of_nat kn -> (1 <= kn)%nat ->
  exists d2 rows,
    prepareSlideshow divs options d =
      (mkEnv (Dom.nextId d) rows (fadeTimeStepOf options),
       fold_left (fun d' trEl => Dom.appendChild (Dom.nextId d) trEl d')
                 rows d2) /\
    loopInv d (Dom.nextId d) divs kn (pageCount (List.length divs) kn)
            d2 rows /\
    ((forall x, (Dom.nextId d <= x)%nat -> Dom.disabled d x = false) ->
     wiredInv (Dom.nextId d) divs (Z.of_nat (List.length divs))
              (Z.of_nat kn) d2 rows).
Proof.
  intros Hwf Hdivs Hnd Hk Hk1. unfold prepareSlideshow.
  destruct (Dom.createElement Dom.TABLE d) as [table d1] eqn:E0.
  unfold Dom.createElement in E0. injection E0 as <- Ed1.
  rewrite Hk.
  assert (Hnew : Dom.childNodes d (Dom.nextId d) = [] /\
                 Dom.parentNode d (Dom.nextId d) = None)
    by (apply (proj2 Hwf); lia).
  assert (Hinv : loopInv d (Dom.nextId d) divs kn 0 d1 []).
  { rewrite <- Ed1. split.
    { split; [apply (createElement_wellFormed Dom.TABLE d Hwf)|].
      split; [intros x Hx; apply Hdivs in Hx; simpl; lia|].
      split; [reflexivity|]. split; [intros r []|].
      intros j r Hj. destruct j; discriminate. }
    split; [constructor|]. split; [intros r []|].
    split; [simpl; lia|].
    split.
    { split; [simpl; lia|]. split; [apply Hnew|].
      split; [intros H; apply Hdivs in H; lia|].
      simpl. rewrite (proj1 Hnew). intros x []. }
    split; [apply Hnew|].
    split; [reflexivity|]. split; [reflexivity|].
    split; [reflexivity|]. intros j r Hj. destruct j; discriminate. }
  pose proof (buildRows_loop d (Dom.nextId d) divs kn Hk1 Hnd
                (List.length divs) 0%nat d1 [] Hinv) as Hloop.
  pose proof (buildRows_wired d (Dom.nextId d) divs kn Hnd
                (List.length divs) 0%nat d1 [] Hinv) as Hwire.
  destruct (buildRows (List.length divs) divs (Z.of_nat kn) 0 (d1, []))
    as [d2 rows].
  exists d2, rows. split; [reflexivity|]. split.
  { apply Hloop; [|lia].
    pose proof (pageCount_le (List.length divs) kn Hk1). lia. }
  intros Hdis. apply Hwire. split; [assumption|]. split.
  - intros x Hx. rewrite <- Ed1 in Hx. simpl in Hx. rewrite <- Ed1.
    apply Hdis. lia.
  - intros j r Hj. destruct j; discriminate.
Qed.

Lemma map_by_index {A B} (f : A -> B) (g : nat -> B) (l : list A) : forall s,
  (forall j a, nth_error l j = Some a -> f a = g (s + j)%nat) ->
  map f l = map g (seq s (List.length l)).
Proof.
  induction l as [|a l IH]; intros s H; [reflexivity|]. simpl. f_equal.
  - rewrite (H 0%nat a eq_refl). f_equal. lia.
  - apply IH. intros j b Hj. rewrite (H (S j) b Hj). f_equal. lia.
Qed.

Lemma flat_wellFormed n : wellFormed (Examples.flat n).
Proof. split; [intros q c [] | intros m _; split; reflexivity]. Qed.

(** X13.  [prepareSlideshow] over pairwise distinct content elements of a
    well-formed document, with [numVisible = k >= 1]: the slideshow has
    [ceil(N / k)] rows, all different; when the function returns, the
    content elements residing in row [j] are the input elements
    [j * k .. min ((j + 1) * k, N) - 1] in their order, although each row
    was first filled with every element from its page on; the rows'
    contents, one after the other, are the input sequence; and the rows are
    the children of the returned element, in order. *)
Theorem prepareSlideshow_partition
        (d : Dom.t) (divs : list Node) (options : option Options) (k : nat) :
  wellFormed d -> (forall x, In x divs -> (x < Dom.nextId d)%nat) ->
  NoDup divs -> numVisibleOf options = Z.of_nat k -> (1 <= k)%nat ->
  let env := fst (prepareSlideshow divs options d) in
  let d' := snd (prepareSlideshow divs options d) in
  List.length (trEls env) = pageCount (List.length divs) k /\
  NoDup (trEls env) /\
  (forall j tr, nth_error (trEls env) j = Some tr ->
     pageContent d' divs tr = page k divs j) /\
  List.concat (map (pageContent d' divs) (trEls env)) = divs /\
  Dom.childNodes d' (slideShowEl env) = trEls env.
Proof.
  intros Hwf Hdivs Hnd Hk Hk1 env d'.
  destruct (prepareSlideshow_loop d divs options k Hwf Hdivs Hnd Hk Hk1)
    as (d2 & rows & E & Hinv & _).
  unfold env, d'. rewrite E. cbn [fst snd trEls slideShowEl]. clear E env d'.
  destruct Hinv as (Hb & Hndr & Htab & Htn & Htrow & Htc & _).
  destruct Hb as (Hwf2 & Hdiv2 & Hlen & Hrows & Hcont).
  set (table := Dom.nextId d) in *.
  destruct (attach_rows table divs rows d2 Hwf2 Htn Hndr) as (Hc & Hct & _).
  { intros r Hr. split; [now apply Hrows|]. apply Htab in Hr. lia. }
  set (dfin := fold_left _ rows d2) in *.
  assert (Hcover : (List.length divs <= List.length rows * k)%nat)
    by (apply pageCount_covers; [assumption | lia]).
  assert (Hpages : forall j tr, nth_error rows j = Some tr ->
            pageContent dfin divs tr = page k divs j).
  { intros j tr Hj.
    assert (Hr : In tr rows) by (eapply nth_error_In; eassumption).
    assert (Hjlt : (j < List.length rows)%nat)
      by (apply nth_error_Some; congruence).
    assert (Hsame : pageContent dfin divs tr = pageContent d2 divs tr).
    { unfold pageContent. rewrite Hc by (apply Htab in Hr; lia).
      f_equal. apply flat_map_ext_In. intros x Hx. apply Hc. intros ->.
      revert Hx. apply detached_notin; [apply Hwf2 | apply Htrow]. }
    rewrite Hsame, (Hcont j tr Hj).
    destruct (Nat.ltb_spec (S j) (pageCount (List.length divs) k))
      as [_ | Hlast]; [reflexivity|].
    unfold page. symmetry. apply firstn_all2. rewrite length_skipn.
    assert (S j = List.length rows) by lia.
    assert (List.length rows * k = j * k + k)%nat by nia. lia. }
  split; [assumption|]. split; [assumption|]. split; [assumption|].
  split.
  - rewrite (map_by_index _ (page k divs) rows 0%nat)
      by (intros j a Hj; now apply Hpages).
    rewrite concat_pages. now apply firstn_all2.
  - now rewrite Hct, Htc.
Qed.

Lemma prepareSlideshow_partition_witness :
  let env := fst (prepareSlideshow Examples.sevenDivs None (Examples.flat 7)) in
  let d' := snd (prepareSlideshow Examples.sevenDivs None (Examples.flat 7)) in
  List.length (trEls env) = pageCount (List.length Examples.sevenDivs) 3 /\
  NoDup (trEls env) /\
  (forall j tr, nth_error (trEls env) j = Some tr ->
     pageContent d' Examples.sevenDivs tr = page 3 Examples.sevenDivs j) /\
  List.concat (map (pageContent d' Examples.sevenDivs) (trEls env)) =
    Examples.sevenDivs /\
  Dom.childNodes d' (slideShowEl env) = trEls env.
Proof.
  apply (prepareSlideshow_partition (Examples.flat 7) Examples.sevenDivs
           None 3%nat).
  - apply flat_wellFormed.
  - simpl. intuition lia.
  - unfold Examples.sevenDivs. repeat constructor; simpl; intuition lia.
  - reflexivity.
  - lia.
Defined.

(** X14.  How the slideshow looks when [prepareSlideshow] returns, if no
    identifier that was yet to be handed out carried a [display] value:
    row 0 is the one row shown, every later row has [display] none.  No
    element that existed before the call, the content elements included,
    has had its style changed, and every opacity is as it was. *)
Theorem prepareSlideshow_first_row_shown
        (d : Dom.t) (divs : list Node) (options : option Options) (k : nat) :
  wellFormed d -> (forall x, In x divs -> (x < Dom.nextId d)%nat) ->
  NoDup divs -> numVisibleOf options = Z.of_nat k -> (1 <= k)%nat ->
  (forall x, (Dom.nextId d <= x)%nat ->
     Dom.style d x "display" = EmptyString) ->
  let env := fst (prepareSlideshow divs options d) in
  let d' := snd (prepareSlideshow divs options d) in
  (forall j tr, nth_error (trEls env) j = Some tr ->
     shown d' tr = Nat.eqb j 0) /\
  (forall x, (x < Dom.nextId d)%nat -> Dom.style d' x = Dom.style d x) /\
  Dom.opacity d' = Dom.opacity d.
Proof.
  intros Hwf Hdivs Hnd Hk Hk1 Hblank env d'.
  destruct (prepareSlideshow_loop d divs options k Hwf Hdivs Hnd Hk Hk1)
    as (d2 & rows & E & Hinv & _).
  unfold env, d'. rewrite E. cbn [fst snd trEls slideShowEl]. clear E env d'.
  destruct Hinv as (Hb & Hndr & Htab & Htn & Htrow & Htc & Hst & Hop & _ & Hdisp).
  destruct Hb as (Hwf2 & Hdiv2 & Hlen & Hrows & Hcont).
  destruct (attach_rows (Dom.nextId d) divs rows d2 Hwf2 Htn Hndr)
    as (_ & _ & Hs & Ho).
  { intros r Hr. split; [now apply Hrows|]. apply Htab in Hr. lia. }
  split; [|split].
  - intros j tr Hj. unfold shown. rewrite Hs, (Hdisp j tr Hj).
    assert (Hr : In tr rows) by (eapply nth_error_In; eassumption).
    destruct j; simpl; [|reflexivity].
    rewrite Hblank by (apply Htab in Hr; lia). reflexivity.
  - intros x Hx. rewrite Hs. apply Hst. lia.
  - now rewrite Ho.
Qed.

Lemma prepareSlideshow_first_row_shown_witness :
  let env := fst (prepareSlideshow Examples.sevenDivs None (Examples.flat 7)) in
  let d' := snd (prepareSlideshow Examples.sevenDivs None (Examples.flat 7)) in
  (forall j tr, nth_error (trEls env) j = Some tr ->
     shown d' tr = Nat.eqb j 0) /\
  (forall x, (x < Dom.nextId (Examples.flat 7))%nat ->
     Dom.style d' x = Dom.style (Examples.flat 7) x) /\
  Dom.opacity d' = Dom.opacity (Examples.flat 7).
Proof.
  apply (prepareSlideshow_first_row_shown (Examples.flat 7)
           Examples.sevenDivs None 3%nat).
  - apply flat_wellFormed.
  - simpl. intuition lia.
  - unfold Examples.sevenDivs. repeat constructor; simpl; intuition lia.
  - reflexivity.
  - lia.
  - reflexivity.
Defined.

(** X15.  The hidden index of the arrow buttons, read back.  When
    [prepareSlideshow] returns (same preconditions, no identifier yet to
    be handed out being disabled), row [j] begins with a cell holding its
    left button and ends with a cell holding its right button; a click
    whose target is either button, or the arrow span inside either, yields
    row index [j] in the handler.  The left button is disabled exactly in
    row 0, the right button exactly in the last row. *)
Theorem prepareSlideshow_buttons
        (d : Dom.t) (divs : list Node) (options : option Options) (k : nat) :
  wellFormed d -> (forall x, In x divs -> (x < Dom.nextId d)%nat) ->
  NoDup divs -> numVisibleOf options = Z.of_nat k -> (1 <= k)%nat ->
  (forall x, (Dom.nextId d <= x)%nat -> Dom.disabled d x = false) ->
  let env := fst (prepareSlideshow divs options d) in
  let d' := snd (prepareSlideshow divs options d) in
  forall j tr, nth_error (trEls env) j = Some tr ->
    exists leftButton rightButton,
      leftButtonOf d' tr = Some leftButton /\
      rightButtonOf d' tr = Some rightButton /\
      (forall target,
         target = leftButton \/ target = rightButton \/
         hd_error (Dom.childNodes d' leftButton) = Some target \/
         hd_error (Dom.childNodes d' rightButton) = Some target ->
         trElIndexForThisButton d' target = Some (Some (Z.of_nat j))) /\
      Dom.disabled d' leftButton = Nat.eqb j 0 /\
      Dom.disabled d' rightButton = Nat.eqb (S j) (List.length (trEls env)).
Proof.
  intros Hwf Hdivs Hnd Hk Hk1 Hdis env d'.
  destruct (prepareSlideshow_loop d divs options k Hwf Hdivs Hnd Hk Hk1)
    as (d2 & rows & E & Hinv & Hw).
  specialize (Hw Hdis).
  unfold env, d'. rewrite E. cbn [fst snd trEls slideShowEl]. clear E env d'.
  destruct Hinv as (Hb & Hndr & Htab & Htn & Htrow & Htc & _).
  destruct Hb as (Hwf2 & Hdiv2 & Hlen & Hrows & _).
  destruct Hw as (Hlow & _ & Hw).
  set (table := Dom.nextId d) in *.
  destruct (attach_rows table divs rows d2 Hwf2 Htn Hndr) as (Hc & _).
  { intros r Hr. split; [now apply Hrows|]. apply Htab in Hr. lia. }
  destruct (attach_kept table rows d2) as (An & At & Ax & Ad & Ap).
  set (dfin := fold_left _ rows d2) in *.
  assert (K : forall x, (table < x)%nat -> kept divs d2 dfin x).
  { intros x Hx. split; [now rewrite At|]. split; [now rewrite Ax|].
    split; [now rewrite Ad|]. split.
    - intros _ Hp. apply Ap. intros Hin. apply Hp. now apply (Hrows x Hin).
    - intros _. apply Hc. lia. }
  intros j tr Hj.
  assert (Hr : In tr rows) by (eapply nth_error_In; eassumption).
  assert (Hjlt : (j < List.length rows)%nat)
    by (apply nth_error_Some; congruence).
  assert (Hwired : wired dfin tr j
            (isLastRow (Z.of_nat (List.length divs)) (Z.of_nat k) j)).
  { apply (wired_kept divs d2).
    - now apply Hw.
    - lia.
    - intros x Hx. apply Hlow in Hx. apply Htab in Hr. lia.
    - apply Hc. apply Htab in Hr. lia.
    - intros x Hx _. apply K. apply Htab in Hr. lia. }
  destruct Hwired as (tdl & bl & tdr & br & H1 & H2 & H3 & H4 & _ & _ & _ &
                      _ & _ & _ & Bl & Br & Dl & Dr).
  assert (Hread : forall b, isButton dfin b j ->
            forall target,
              target = b \/ hd_error (Dom.childNodes dfin b) = Some target ->
              trElIndexForThisButton dfin target = Some (Some (Z.of_nat j))).
  { intros b (_ & Tb & Cb & Ta & Pa & Xh) target [-> | Ht].
    - unfold trElIndexForThisButton. rewrite Tb, Cb. cbn [nth_error].
      rewrite Xh. reflexivity.
    - rewrite Cb in Ht. injection Ht as <-.
      unfold trElIndexForThisButton, nextSibling. rewrite Ta, Pa, Cb.
      cbn [after]. rewrite Nat.eqb_refl. cbn [hd_error].
      rewrite Xh. reflexivity. }
  exists bl, br.
  split; [unfold leftButtonOf; rewrite H1, H3; reflexivity|].
  split; [unfold rightButtonOf; rewrite H2, H4; reflexivity|].
  split.
  { intros target [-> | [-> | [Ht | Ht]]].
    - apply (Hread bl Bl). now left.
    - apply (Hread br Br). now left.
    - apply (Hread bl Bl). now right.
    - apply (Hread br Br). now right. }
  split; [assumption|].
  rewrite Dr, Hlen. apply isLastRow_iff; [assumption | lia].
Qed.

Lemma prepareSlideshow_buttons_witness :
  let env := fst (prepareSlideshow Examples.sevenDivs None (Examples.flat 7)) in
  let d' := snd (prepareSlideshow Examples.sevenDivs None (Examples.flat 7)) in
  exists leftButton rightButton,
    leftButtonOf d' 24%nat = Some leftButton /\
    rightButtonOf d' 24%nat = Some rightButton /\
    (forall target,
       target = leftButton \/ target = rightButton \/
       hd_error (Dom.childNodes d' leftButton) = Some target \/
       hd_error (Dom.childNodes d' rightButton) = Some target ->
       trElIndexForThisButton d' target = Some (Some (Z.of_nat 1))) /\
    Dom.disabled d' leftButton = Nat.eqb 1 0 /\
    Dom.disabled d' rightButton = Nat.eqb 2 (List.length (trEls env)).
Proof.
  apply (prepareSlideshow_buttons (Examples.flat 7) Examples.sevenDivs
           None 3%nat).
  - apply flat_wellFormed.
  - simpl. intuition lia.
  - unfold Examples.sevenDivs. repeat constructor; simpl; intuition lia.
  - reflexivity.
  - lia.
  - reflexivity.
  - vm_compute. reflexivity.
Defined.

(** X17.  The degenerate slideshows.  With a negative [numVisible], or
    with no content element at all, the loop condition
    [i < divs.length / numVisible] fails at once: [prepareSlideshow]
    returns a table without rows, and the document is changed by the
    creation of that table only; the content elements stay where they
    were.  (A [numVisible] of 0 is falsy and stands for 3.) *)
Theorem prepareSlideshow_no_rows
        (d : Dom.t) (divs : list Node) (options : option Options) :
  numVisibleOf options < 0 \/ divs = [] ->
  prepareSlideshow divs options d =
    (mkEnv (Dom.nextId d) [] (fadeTimeStepOf options),
     snd (Dom.createElement Dom.TABLE d)).
Proof.
  intros H. unfold prepareSlideshow.
  destruct (Dom.createElement Dom.TABLE d) as [table d1] eqn:E0.
  unfold Dom.createElement in E0. injection E0 as <- <-.
  assert (E : buildRows (List.length divs) divs (numVisibleOf options) 0
                (snd (Dom.createElement Dom.TABLE d), []) =
              (snd (Dom.createElement Dom.TABLE d), [])).
  { destruct H as [Hk | ->]; [|reflexivity].
    destruct (List.length divs); [reflexivity|]. cbn [buildRows].
    unfold moreRows.
    destruct (Z.ltb_spec 0 (numVisibleOf options)); [lia | reflexivity]. }
  cbn [snd Dom.createElement] in E. rewrite E. reflexivity.
Qed.

Lemma prepareSlideshow_no_rows_witness :
  prepareSlideshow Examples.sevenDivs (Some (mkOptions (Some (-2)) None))
                   (Examples.flat 7) =
    (mkEnv (Dom.nextId (Examples.flat 7)) []
           (fadeTimeStepOf (Some (mkOptions (Some (-2)) None))),
     snd (Dom.createElement Dom.TABLE (Examples.flat 7))).
Proof.
  apply (prepareSlideshow_no_rows (Examples.flat 7) Examples.sevenDivs
           (Some (mkOptions (Some (-2)) None))).
  left. vm_compute. reflexivity.
Defined.

End ConstructionFacts.


(** ** [Player] *)

Section PlayerFacts.
Import Player.

Lemma get_set_same m key v :
  has m key = true -> get (set m key v) key = Some v.
Proof.
  unfold has. induction m as [|[k v'] m IH]; simpl; [discriminate|].
  destruct (String.eqb k key) eqn:E; simpl; rewrite E; [reflexivity|].
  exact IH.
Qed.

Lemma get_set_other m key v k :
  k <> key -> get (set m key v) k = get m k.
Proof.
  intros Hne. induction m as [|[k' v'] m IH]; simpl.
  - destruct (String.eqb_spec key k); [congruence | reflexivity].
  - destruct (String.eqb_spec k' key) as [-> | Hk]; simpl.
    + destruct (String.eqb_spec key k); [congruence | reflexivity].
    + destruct (String.eqb k' k); [reflexivity | exact IH].
Qed.

Lemma keys_set m key v :
  has m key = true -> map fst (set m key v) = map fst m.
Proof.
  unfold has. induction m as [|[k v'] m IH]; simpl; [discriminate|].
  destruct (String.eqb k key) eqn:E; simpl; [reflexivity|].
  intros H. now rewrite IH.
Qed.

Lemma improveSkill_skills {Level Item} n pts (p : t Level Item) :
  skills (after (improveSkill n pts p)) =
  match get (skills p) n with
  | Some s => set (skills p) n
                  (mkSkill (description s) (value s + pts)%float)
  | None => skills p
  end.
Proof.
  unfold improveSkill, has. destruct (get (skills p) n); reflexivity.
Qed.

(** X18.  What no sequence of [setXp], [addSkill] and [improveSkill] calls
    on a constructed player changes: [xpLevel] is always
    [getLevelFromXp(xp)]; the skill names, in order, and every skill's
    description are those of the initial map, so [addSkill] has never
    added a skill (it throws on [this.playerStats]); name and items are
    as constructed. *)
Theorem player_calls_keep_skill_names
        (Level Item : Type) (name0 : string) (initialSkills : Skills)
        (initialXp : float) (levelOf : float -> Level)
        (initialItems : list Item) (calls : list Call) :
  let this := fold_left perform calls
                (constructor name0 initialSkills initialXp levelOf
                             initialItems) in
  xpLevel this = levelOf (xp this) /\
  map fst (skills this) = map fst initialSkills /\
  (forall key, option_map description (get (skills this) key) =
               option_map description (get initialSkills key)) /\
  name this = name0 /\ items this = initialItems.
Proof.
  set (inv := fun p : t Level Item =>
                getLevelFromXp p = levelOf /\
                xpLevel p = levelOf (xp p) /\
                map fst (skills p) = map fst initialSkills /\
                (forall key, option_map description (get (skills p) key) =
                             option_map description (get initialSkills key)) /\
                name p = name0 /\ items p = initialItems).
  assert (Hall : forall cs p, inv p -> inv (fold_left perform cs p)).
  { induction cs as [|c cs IH]; intros p Hp; [exact Hp|].
    cbn [fold_left]. apply IH. clear IH.
    destruct Hp as (Hl & Hx & Hk & Hd & Hn & Hi).
    destruct c as [newXp | n d pts | n pts].
    - split; [exact Hl|]. split; [simpl; unfold recalculateXpLevel; simpl;
        now rewrite Hl|].
      split; [exact Hk|]. split; [exact Hd|]. split; assumption.
    - split; [exact Hl|]. split; [exact Hx|]. split; [exact Hk|].
      split; [exact Hd|]. split; assumption.
    - assert (Hs := improveSkill_skills n pts p).
      assert (Hrest : getLevelFromXp (after (improveSkill n pts p)) =
                        getLevelFromXp p /\
                      xpLevel (after (improveSkill n pts p)) = xpLevel p /\
                      xp (after (improveSkill n pts p)) = xp p /\
                      name (after (improveSkill n pts p)) = name p /\
                      items (after (improveSkill n pts p)) = items p).
      { unfold improveSkill, has.
        destruct (get (skills p) n); repeat split; reflexivity. }
      destruct Hrest as (R1 & R2 & R3 & R4 & R5).
      unfold perform.
      split; [now rewrite R1|]. split; [now rewrite R2, R3|].
      rewrite Hs. destruct (get (skills p) n) as [s|] eqn:Eg.
      + assert (Hhas : has (skills p) n = true) by (unfold has; now rewrite Eg).
        split; [now rewrite keys_set|]. split.
        { intros key. rewrite <- Hd.
          destruct (String.eqb_spec key n) as [-> | Hne].
          - rewrite get_set_same by assumption. now rewrite Eg.
          - now rewrite get_set_other. }
        split; [now rewrite R4 | now rewrite R5].
      + split; [exact Hk|]. split; [exact Hd|].
        split; [now rewrite R4 | now rewrite R5]. }
  intros this.
  destruct (Hall calls (constructor name0 initialSkills initialXp levelOf
                                    initialItems))
    as (_ & Hx & Hk & Hd & Hn & Hi).
  { repeat split; reflexivity. }
  repeat split; assumption.
Qed.

(** X19.  [improveSkill]: for a name that is not a key of the map it
    returns [doesNotExist] and leaves the player as it was; for a key it
    returns [success] (it never throws), after which the map gives, for
    that name, the old description with [improvePoints] added to the old
    value, and for every other name what it gave before; XP and level
    are untouched. *)
Theorem improveSkill_adds_points
        (Level Item : Type) (skillName : string) (improvePoints : float)
        (this : t Level Item) :
  (get (skills this) skillName = None ->
   improveSkill skillName improvePoints this =
     Returned "doesNotExist" this) /\
  (forall s, get (skills this) skillName = Some s ->
     exists this',
       improveSkill skillName improvePoints this =
         Returned "success" this' /\
       get (skills this') skillName =
         Some (mkSkill (description s) (value s + improvePoints)%float) /\
       (forall key, key <> skillName ->
          get (skills this') key = get (skills this) key) /\
       xp this' = xp this /\ xpLevel this' = xpLevel this).
Proof.
  split.
  - intros H. unfold improveSkill, has. now rewrite H.
  - intros s H.
    exists (mk (name this)
               (set (skills this) skillName
                    (mkSkill (description s)
                             (value s + improvePoints)%float))
               (xp this) (getLevelFromXp this) (xpLevel this) (items this)).
    split; [unfold improveSkill, has; now rewrite H|].
    cbn [skills xp xpLevel].
    split.
    { apply get_set_same. unfold has. now rewrite H. }
    split; [intros key Hne; now apply get_set_other|].
    split; reflexivity.
Qed.

End PlayerFacts.


(** ** [RandomUtils] *)

Section RandomFacts.
Import RandomUtils.




End RandomFacts.
